(** * Discovery / research orchestration loop of [agents.py]

    A shallow embedding of the orchestration core of [src/agents.py]:
    the rate limiter, the company registry and its [add_discovered_company]
    tool, the CSV sink, the two graph nodes and the [should_continue]
    routing function, followed by the properties checked against it.

    Conventions of the embedding
    - Python [str] values are Rocq [string]s whose characters are read as
      code points 0..255; [strip] and [lower] follow Python on that range.
    - The module-level globals are the fields of [world]; every function
      takes the world and returns the new one.
    - [TARGET_COMPANIES] is [Finite n] or [Unlimited] ([float('inf')]).
    - The external agents are scripts ([agent_run]) that may call the
      [add_discovered_company] tool, see its answer, and finally reply or
      raise.
    - Wall-clock time is a rational number of seconds; sleeping [d] lets at
      least [d] seconds pass. *)

From Stdlib Require Import Bool Arith ZArith List Lia String Ascii.
From Stdlib Require Import DecimalString QArith Lqa.
Import ListNotations.

Local Open Scope string_scope.
Local Open Scope nat_scope.

(* ================================================================== *)
(** ** Python string operations used by the code *)
(* ================================================================== *)

Module Text.

(** [str.isspace] on the code points below 256: TAB..CR, FS..US, SPACE,
    NEL and NBSP. *)
Definition is_space (c : ascii) : bool :=
  let n := nat_of_ascii c in
  ((9 <=? n) && (n <=? 13)) || ((28 <=? n) && (n <=? 32))
  || (n =? 133) || (n =? 160).

(** [str.lower] on one code point below 256. *)
Definition lower_char (c : ascii) : ascii :=
  let n := nat_of_ascii c in
  if ((65 <=? n) && (n <=? 90))
     || ((192 <=? n) && (n <=? 222) && negb (n =? 215))
  then ascii_of_nat (n + 32) else c.

Fixpoint lower (s : string) : string :=
  match s with
  | EmptyString => EmptyString
  | String c s' => String (lower_char c) (lower s')
  end.

Fixpoint lstrip (s : string) : string :=
  match s with
  | EmptyString => EmptyString
  | String c s' => if is_space c then lstrip s' else s
  end.

Fixpoint rstrip (s : string) : string :=
  match s with
  | EmptyString => EmptyString
  | String c s' =>
      match rstrip s' with
      | EmptyString => if is_space c then EmptyString else String c EmptyString
      | r => String c r
      end
  end.

(** [s.strip()] *)
Definition strip (s : string) : string := rstrip (lstrip s).

(** Python truthiness of a string: non-empty. *)
Definition truthy (s : string) : bool :=
  match s with EmptyString => false | _ => true end.

(** [needle in hay] *)
Fixpoint contains (needle hay : string) : bool :=
  prefix needle hay
  || match hay with
     | EmptyString => false
     | String _ hay' => contains needle hay'
     end.

(** [str(n)] for a non-negative [int]. *)
Definition string_of_nat (n : nat) : string :=
  NilEmpty.string_of_uint (Nat.to_uint n).

End Text.

(* ================================================================== *)
(** ** The company registry *)
(* ================================================================== *)

(** A company dict with the seven keys the code writes. *)
Record company := mkCompany {
  name : string;
  location : string;
  website : string;
  services : string;
  email : string;
  contact_details : string;
  detailed_report : string
}.

(** [TARGET_COMPANIES] after [get_user_requirements]: an [int] or
    [float('inf')]. *)
Inductive target := Finite (n : nat) | Unlimited.

(** [len(discovered_companies) >= TARGET_COMPANIES] *)
Definition target_reached (t : target) (len : nat) : bool :=
  match t with
  | Finite n => n <=? len
  | Unlimited => false
  end.

(** [f"{TARGET_COMPANIES}"] *)
Definition target_text (t : target) : string :=
  match t with
  | Finite n => Text.string_of_nat n
  | Unlimited => "inf"
  end.

(** Arguments of one call of the tool; [company_name = None] stands for a
    call that passes [None]. The other parameters default to the empty
    string. *)
Record candidate := mkCandidate {
  company_name : option string;
  c_location : string;
  c_website : string;
  c_services : string;
  c_email : string;
  c_contact_details : string
}.

(** The five return statements of [add_discovered_company]. *)
Inductive add_signal :=
| NameRequired
| TargetReached
| AlreadyExists (given : string)
| SuccessTarget (count : nat)
| Added (given : string).

(** The text each return statement produces. *)
Definition signal_text (t : target) (sg : add_signal) : string :=
  match sg with
  | NameRequired => "Error: Company name is required"
  | TargetReached => "Target reached: " ++ target_text t ++ " companies found"
  | AlreadyExists given => "Company " ++ given ++ " already exists"
  | SuccessTarget k =>
      "SUCCESS: Found " ++ Text.string_of_nat k ++ " companies (target reached)"
  | Added given => "Successfully added company: " ++ given
  end.

(** The duplicate scan: [existing['name'].lower().strip() == company_name_clean]
    for some existing record. *)
Definition name_taken (clean : string) (reg : list company) : bool :=
  existsb (fun existing => String.eqb (Text.strip (Text.lower (name existing))) clean) reg.

(** [add_discovered_company]: the signal returned and the registry after
    the call. The checks run in the order of the source: name, target,
    duplicate. *)
Definition add_discovered_company (t : target) (c : candidate)
    (reg : list company) : add_signal * list company :=
  match company_name c with
  | None => (NameRequired, reg)
  | Some given =>
      if negb (Text.truthy given) || negb (Text.truthy (Text.strip given))
      then (NameRequired, reg)
      else if target_reached t (List.length reg) then (TargetReached, reg)
      else
        let company_name_clean := Text.lower (Text.strip given) in
        if name_taken company_name_clean reg then (AlreadyExists given, reg)
        else
          let company_data :=
            {| name := Text.strip given;
               location := Text.strip (c_location c);
               website := Text.strip (c_website c);
               services := Text.strip (c_services c);
               email := Text.strip (c_email c);
               contact_details := Text.strip (c_contact_details c);
               detailed_report := "" |} in
          let reg' := (reg ++ [company_data])%list in
          if target_reached t (List.length reg') then (SuccessTarget (List.length reg'), reg')
          else (Added given, reg')
  end.

(** A sequence of tool calls, applied left to right. *)
Definition add_all (t : target) (cs : list candidate) (reg : list company)
    : list company :=
  fold_left (fun r c => snd (add_discovered_company t c r)) cs reg.

(** A candidate that gives only a name. *)
Definition named (n : string) : candidate :=
  mkCandidate (Some n) "" "" "" "" "".

(** The comparison key of the registry invariant: trim, then case-fold. *)
Definition name_key (n : string) : string := Text.lower (Text.strip n).

(* ================================================================== *)
(** ** The rate limiter *)
(* ================================================================== *)

Definition MIN_REQUEST_INTERVAL : Q := 3.
Definition MAX_REQUESTS_PER_MINUTE : nat := 25.

(** The two globals of the limiter, and the wall clock they are compared
    with ([time.time()] reads [clock]). *)
Record limiter := mkLimiter {
  last_request_time : Q;
  request_count : nat;
  clock : Q
}.

(** What the environment contributes to one call: the time gone by since
    the clock was last read ([idle]) and the time gone by inside the call
    beyond the requested sleeps ([lag]). Both are non-negative for a clock
    that does not run backwards. *)
Record delays := mkDelays { idle : Q; lag : Q }.

Definition delays_ok (d : delays) : Prop := (0 <= idle d)%Q /\ (0 <= lag d)%Q.

(** [x < y] on rationals, as a boolean. *)
Definition Qltb (x y : Q) : bool := negb (Qle_bool y x).

(** [enhanced_rate_limit]. [slept_cap] is the [time.sleep(60)] of the
    per-minute cap, [slept_gap] the [time.sleep(wait_time)] of the minimum
    interval; the second comparison uses the reading taken on entry, as
    the source does. *)
Definition enhanced_rate_limit (d : delays) (s : limiter) : limiter :=
  let current_time := (clock s + idle d)%Q in
  let count1 :=
    if Qltb 60 (current_time - last_request_time s) then 0 else request_count s in
  let slept_cap := if MAX_REQUESTS_PER_MINUTE <=? count1 then 60%Q else 0%Q in
  let count2 := if MAX_REQUESTS_PER_MINUTE <=? count1 then 0 else count1 in
  let slept_gap :=
    if Qltb (current_time - last_request_time s) MIN_REQUEST_INTERVAL
    then (MIN_REQUEST_INTERVAL - (current_time - last_request_time s))%Q
    else 0%Q in
  let t := (current_time + slept_cap + slept_gap + lag d)%Q in
  {| last_request_time := t; request_count := count2 + 1; clock := t |}.

(** The situation in which the per-minute cap applies: the counter is not
    reset on entry and stands at [MAX_REQUESTS_PER_MINUTE] or more. *)
Definition cap_hit (d : delays) (s : limiter) : Prop :=
  Qltb 60 (clock s + idle d - last_request_time s) = false
  /\ MAX_REQUESTS_PER_MINUTE <= request_count s.

(** The limiter states after each of a burst of calls (one [delays] per
    call), oldest first; the time of a grant is [last_request_time]. *)
Fixpoint grants (ds : list delays) (s : limiter) : list limiter :=
  match ds with
  | [] => []
  | d :: ds' => let s' := enhanced_rate_limit d s in s' :: grants ds' s'
  end.

Definition grant_times (ds : list delays) (s : limiter) : list Q :=
  map last_request_time (grants ds s).

(** The instants at which the calls of a burst return to their caller:
    the clock each call leaves behind, sleeps included. *)
Definition return_times (ds : list delays) (s : limiter) : list Q :=
  map clock (grants ds s).

(** Number of instants of [ts] inside the closed window [from, from+60]. *)
Definition in_window (from t : Q) : bool :=
  Qle_bool from t && Qle_bool t (from + 60).

Definition count_in_window (from : Q) (ts : list Q) : nat :=
  List.length (filter (in_window from) ts).

(** Consecutive elements are at least [gap] apart. *)
Fixpoint spaced (gap : Q) (ts : list Q) : Prop :=
  match ts with
  | [] => True
  | t1 :: rest =>
      match rest with
      | [] => True
      | t2 :: _ => (t1 + gap <= t2)%Q
      end /\ spaced gap rest
  end.

(* ================================================================== *)
(** ** The CSV sink *)
(* ================================================================== *)

Definition csv_header : list string :=
  ["Company_Name"; "Location"; "Website"; "Services"; "Email";
   "Contact_Details"; "Detailed_Report"].

(** [initialize_csv]: the file holds the header row only. *)
Definition initialize_csv : list (list string) := [csv_header].

Definition csv_row (company_data : company) : list string :=
  [name company_data; location company_data; website company_data;
   services company_data; email company_data; contact_details company_data;
   detailed_report company_data].

(** [add_company_to_csv]. [io_ok] tells whether opening and writing the
    file succeeds; when it raises, the [except] branch returns [False] and
    the file is as before. *)
Definition add_company_to_csv (io_ok : bool) (company_data : company)
    (file : list (list string)) : list (list string) * bool :=
  if io_ok then ((file ++ [csv_row company_data])%list, true)
  else (file, false).

(* ================================================================== *)
(** ** The external agents *)
(* ================================================================== *)

(** One [agent.invoke(...)]: the agent calls the [add_discovered_company]
    tool any number of times, each time seeing the text the tool returned,
    and then either returns (with the content of its last message, or with
    no message at all) or raises. *)
Inductive agent_run :=
| Reply (content : option string)
| Raise (err : string)
| CallAdd (args : candidate) (k : string -> agent_run).

Inductive outcome :=
| Returned (content : option string)
| Raised (err : string).

(** Running one invocation against the registry. *)
Fixpoint run_agent (t : target) (r : agent_run) (reg : list company)
    : outcome * list company :=
  match r with
  | Reply content => (Returned content, reg)
  | Raise err => (Raised err, reg)
  | CallAdd args k =>
      let '(sg, reg') := add_discovered_company t args reg in
      run_agent t (k (signal_text t sg)) reg'
  end.

(* ================================================================== *)
(** ** The run-scoped state and the two graph nodes *)
(* ================================================================== *)

(** Outbound calls made so far, oldest first. This log is not a variable
    of the program; it records which collaborators a node reached. *)
Inductive call :=
| RateLimitCall
| DiscoveryInvoke
| ResearchInvoke (company : string).

(** The module-level globals, the CSV file and the call log. *)
Record world := mkWorld {
  discovered_companies : list company;
  current_research_index : nat;
  discovery_complete : bool;
  rate : limiter;
  csv_file : list (list string);
  calls : list call
}.

Definition set_companies (reg : list company) (w : world) : world :=
  mkWorld reg (current_research_index w) (discovery_complete w) (rate w)
          (csv_file w) (calls w).

Definition set_index (i : nat) (w : world) : world :=
  mkWorld (discovered_companies w) i (discovery_complete w) (rate w)
          (csv_file w) (calls w).

Definition set_discovery_complete (b : bool) (w : world) : world :=
  mkWorld (discovered_companies w) (current_research_index w) b (rate w)
          (csv_file w) (calls w).

Definition set_csv (f : list (list string)) (w : world) : world :=
  mkWorld (discovered_companies w) (current_research_index w)
          (discovery_complete w) (rate w) f (calls w).

Definition log_call (c : call) (w : world) : world :=
  mkWorld (discovered_companies w) (current_research_index w)
          (discovery_complete w) (rate w) (csv_file w) (calls w ++ [c])%list.

(** A node's call of [enhanced_rate_limit()]. *)
Definition rate_limited (d : delays) (w : world) : world :=
  log_call RateLimitCall
    (mkWorld (discovered_companies w) (current_research_index w)
             (discovery_complete w) (enhanced_rate_limit d (rate w))
             (csv_file w) (calls w)).

(** The status markers, as the strings the nodes put in their message. *)
Definition DISCOVERY_COMPLETE : string := "DISCOVERY_COMPLETE".
Definition RESEARCH_PROGRESS : string := "RESEARCH_PROGRESS".
Definition ALL_RESEARCH_COMPLETE : string := "ALL_RESEARCH_COMPLETE".
Definition DISCOVERY_ERROR (e : string) : string :=
  "DISCOVERY_ERROR: " ++ ("Discovery error: " ++ e).
Definition RESEARCH_ERROR (e : string) : string :=
  "RESEARCH_ERROR: " ++ ("Research error: " ++ e).

Definition max_attempts : nat := 10.

(** How the [while] loop of [discovery_node] is left: past its last
    statement, or by an exception of [discovery_agent.invoke]. The final
    value of the local [attempts] is kept for the statements about it. *)
Inductive loop_exit :=
| LoopDone (w : world) (attempts : nat)
| LoopRaised (err : string) (w : world) (attempts : nat).

(** The [while] loop of [discovery_node]. [agent k] is the behaviour of the
    [k]-th invocation. [None] means the fuel ran out before the loop was
    left. *)
Fixpoint discovery_loop (fuel : nat) (t : target) (agent : nat -> agent_run)
    (attempts : nat) (w : world) : option loop_exit :=
  if negb (target_reached t (List.length (discovered_companies w)))
     && (attempts <? max_attempts)
  then
    match fuel with
    | 0 => None
    | S fuel' =>
        let attempts := attempts + 1 in
        let '(result, reg') :=
          run_agent t (agent attempts) (discovered_companies w) in
        let w := log_call DiscoveryInvoke (set_companies reg' w) in
        match result with
        | Raised err => Some (LoopRaised err w attempts)
        | Returned (Some last_message) =>
            if Text.contains "Target reached" last_message
               || Text.contains "SUCCESS" last_message
            then Some (LoopDone w attempts)                       (* break *)
            else if Text.contains "already exists" last_message
            then discovery_loop fuel' t agent attempts w          (* continue *)
            else if max_attempts <=? attempts
            then Some (LoopDone w attempts)                       (* break *)
            else discovery_loop fuel' t agent attempts w
        | Returned None =>
            if max_attempts <=? attempts
            then Some (LoopDone w attempts)
            else discovery_loop fuel' t agent attempts w
        end
    end
  else Some (LoopDone w attempts).

(** [discovery_node]: the world after the node and the content of the
    message it returns. *)
Definition discovery_node (t : target) (d : delays) (agent : nat -> agent_run)
    (w : world) : option (world * string) :=
  if target_reached t (List.length (discovered_companies w))
  then Some (set_discovery_complete true w, DISCOVERY_COMPLETE)
  else
    match discovery_loop max_attempts t agent 0 (rate_limited d w) with
    | None => None
    | Some (LoopDone w' _) =>
        Some (set_discovery_complete true w', DISCOVERY_COMPLETE)
    | Some (LoopRaised err w' _) => Some (w', DISCOVERY_ERROR err)
    end.

(** [current_company['detailed_report'] = research_report] on the dict at
    position [i] of the list. *)
Definition set_report (report : string) (c : company) : company :=
  mkCompany (name c) (location c) (website c) (services c) (email c)
            (contact_details c) report.

Fixpoint update_at {A} (i : nat) (f : A -> A) (l : list A) : list A :=
  match l, i with
  | [], _ => []
  | x :: l', 0 => f x :: l'
  | x :: l', S i' => x :: update_at i' f l'
  end.

(** What one invocation of [research_node] meets: the clock, the research
    agent's behaviour and whether the CSV write succeeds. *)
Record research_env := mkEnv {
  r_delays : delays;
  r_agent : agent_run;
  r_io_ok : bool
}.

(** [research_node]. The research agent carries the
    [add_discovered_company] tool too, so the registry may grow while it
    runs; [current_company] is the dict fetched before the call, which
    stays the element at the same position. An agent result without
    messages makes [result["messages"][-1]] raise. *)
Definition research_node (t : target) (e : research_env) (w : world)
    : world * string :=
  let w := rate_limited (r_delays e) w in
  if List.length (discovered_companies w) <=? current_research_index w
  then (w, ALL_RESEARCH_COMPLETE)
  else
    match nth_error (discovered_companies w) (current_research_index w) with
    | None => (w, RESEARCH_ERROR "list index out of range")
    | Some current_company =>
        let company_name := name current_company in
        let '(result, reg') :=
          run_agent t (r_agent e) (discovered_companies w) in
        let w := log_call (ResearchInvoke company_name) (set_companies reg' w) in
        match result with
        | Raised err => (w, RESEARCH_ERROR err)
        | Returned None => (w, RESEARCH_ERROR "list index out of range")
        | Returned (Some research_report) =>
            let w :=
              set_companies
                (update_at (current_research_index w)
                           (set_report research_report)
                           (discovered_companies w)) w in
            let '(file, _) :=
              add_company_to_csv (r_io_ok e)
                (set_report research_report current_company) (csv_file w) in
            let w := set_csv file w in
            let w := set_index (current_research_index w + 1) w in
            (w, RESEARCH_PROGRESS)
        end
    end.

(** An invocation that never raises, whatever the tool answers. *)
Fixpoint no_raise (r : agent_run) : Prop :=
  match r with
  | Reply _ => True
  | Raise _ => False
  | CallAdd _ k => forall answer, no_raise (k answer)
  end.

Definition is_discovery_invoke (c : call) : bool :=
  match c with DiscoveryInvoke => true | _ => false end.

(** Number of invocations of the discovery agent in a call log. *)
Definition discovery_invokes (cs : list call) : nat :=
  List.length (filter is_discovery_invoke cs).

Definition exit_world (ex : loop_exit) : world :=
  match ex with LoopDone w _ | LoopRaised _ w _ => w end.

Definition exit_attempts (ex : loop_exit) : nat :=
  match ex with LoopDone _ a | LoopRaised _ _ a => a end.

(** The outcomes of the invocations the [while] loop of [discovery_node]
    performs, oldest first: one entry per [discovery_agent.invoke], in the
    registry the invocation finds. The loop is walked as in
    [discovery_loop]; an invocation that raises is the last one. *)
Fixpoint discovery_outcomes (fuel : nat) (t : target) (agent : nat -> agent_run)
    (attempts : nat) (w : world) : list outcome :=
  if negb (target_reached t (List.length (discovered_companies w)))
     && (attempts <? max_attempts)
  then
    match fuel with
    | 0 => []
    | S fuel' =>
        let attempts := attempts + 1 in
        let '(result, reg') :=
          run_agent t (agent attempts) (discovered_companies w) in
        let w := log_call DiscoveryInvoke (set_companies reg' w) in
        result ::
        match result with
        | Raised _ => []
        | Returned (Some last_message) =>
            if Text.contains "Target reached" last_message
               || Text.contains "SUCCESS" last_message
            then []                                               (* break *)
            else if Text.contains "already exists" last_message
            then discovery_outcomes fuel' t agent attempts w      (* continue *)
            else if max_attempts <=? attempts
            then []                                               (* break *)
            else discovery_outcomes fuel' t agent attempts w
        | Returned None =>
            if max_attempts <=? attempts
            then []
            else discovery_outcomes fuel' t agent attempts w
        end
    end
  else [].

(** The invocations one run of [discovery_node] performs: none when the
    node returns at once, else those of the loop entered after the call of
    the rate limiter. *)
Definition discovery_node_outcomes (t : target) (d : delays)
    (agent : nat -> agent_run) (w : world) : list outcome :=
  if target_reached t (List.length (discovered_companies w))
  then []
  else discovery_outcomes max_attempts t agent 0 (rate_limited d w).

Definition returned (o : outcome) : Prop :=
  match o with Returned _ => True | Raised _ => False end.

(* ================================================================== *)
(** ** Routing *)
(* ================================================================== *)

Inductive next_step := ToResearch | ToEnd.

(** [should_continue], on the content of the last message. *)
Definition should_continue (last_message : string) (w : world) : next_step :=
  if Text.contains "ALL_RESEARCH_COMPLETE" last_message then ToEnd
  else if Text.contains "ERROR" last_message then ToEnd
  else if Text.contains "DISCOVERY_COMPLETE" last_message
          && (0 <? List.length (discovered_companies w))
  then ToResearch
  else if Text.contains "RESEARCH_PROGRESS" last_message
          && (current_research_index w <? List.length (discovered_companies w))
  then ToResearch
  else if (List.length (discovered_companies w) <=? current_research_index w)
          && (0 <? List.length (discovered_companies w))
  then ToEnd
  else ToEnd.

(** The markers as a closed type, and the text of each. *)
Inductive marker :=
| MDiscoveryComplete
| MDiscoveryError (e : string)
| MResearchProgress
| MAllResearchComplete
| MResearchError (e : string).

Definition marker_text (m : marker) : string :=
  match m with
  | MDiscoveryComplete => DISCOVERY_COMPLETE
  | MDiscoveryError e => DISCOVERY_ERROR e
  | MResearchProgress => RESEARCH_PROGRESS
  | MAllResearchComplete => ALL_RESEARCH_COMPLETE
  | MResearchError e => RESEARCH_ERROR e
  end.

Definition is_error (m : marker) : Prop :=
  match m with
  | MDiscoveryError _ | MResearchError _ => True
  | _ => False
  end.

(** The markers [research_node] can return. *)
Definition from_research (m : marker) : Prop :=
  match m with
  | MResearchProgress | MAllResearchComplete | MResearchError _ => True
  | _ => False
  end.

(** The markers [discovery_node] can return. *)
Definition from_discovery (m : marker) : Prop :=
  match m with
  | MDiscoveryComplete | MDiscoveryError _ => True
  | _ => False
  end.

(* ================================================================== *)
(** ** The graph of [run_enhanced_research] *)
(* ================================================================== *)

(** The globals after the reset at the top of [run_enhanced_research] and
    [initialize_csv]; the limiter is process-wide and keeps its state. *)
Definition fresh_world (r : limiter) : world :=
  mkWorld [] 0 false r initialize_csv [].

(** The conditional edge out of "research": run the node, route on its
    marker. [steps] bounds the number of node executions (the
    [recursion_limit] given to [graph.invoke]); [None] when it is hit. *)
Fixpoint research_phase (steps : nat) (t : target) (envs : nat -> research_env)
    (k : nat) (w : world) : option (world * string) :=
  match steps with
  | 0 => None
  | S steps' =>
      let '(w', m) := research_node t (envs k) w in
      match should_continue m w' with
      | ToResearch => research_phase steps' t envs (S k) w'
      | ToEnd => Some (w', m)
      end
  end.

Definition recursion_limit : nat := 50.

(** START -> discovery -> (research)* -> END. *)
Definition run_graph (t : target) (d : delays) (agent : nat -> agent_run)
    (envs : nat -> research_env) (r : limiter) : option (world * string) :=
  match discovery_node t d agent (fresh_world r) with
  | None => None
  | Some (w, m) =>
      match should_continue m w with
      | ToResearch => research_phase (recursion_limit - 1) t envs 0 w
      | ToEnd => Some (w, m)
      end
  end.

(* ================================================================== *)
(** ** A scripted run *)
(* ================================================================== *)

(** A discovery agent that registers one company per invocation and
    replies with the text the tool gave it. *)
Definition three_companies_agent (k : nat) : agent_run :=
  CallAdd
    (named (match k with
            | 1 => "Acme Corp"
            | 2 => "Beta LLC"
            | _ => "Gamma Inc"
            end))
    (fun answer => Reply (Some answer)).

(** A research agent that reports on the first company and raises on the
    second; the CSV writes succeed. *)
Definition raise_on_second (k : nat) : research_env :=
  match k with
  | 0 => mkEnv (mkDelays 0 0) (Reply (Some "Report on Acme Corp")) true
  | 1 => mkEnv (mkDelays 0 0) (Raise "search quota exceeded") true
  | _ => mkEnv (mkDelays 0 0) (Reply (Some "Report")) true
  end.

(* ================================================================== *)
(** ** Notions used in the statements *)
(* ================================================================== *)

(** The comparison keys of the records of a registry, in order. *)
Definition keys (reg : list company) : list string :=
  map (fun c => name_key (name c)) reg.

(** The invariant of the registry: no key occurs twice. *)
Definition names_unique (reg : list company) : Prop := NoDup (keys reg).

(** A name that is [None], empty or all blanks. *)
Definition blank_name (n : option string) : Prop :=
  match n with
  | None => True
  | Some given => Text.strip given = EmptyString
  end.

(** The three signals that reject a candidate. *)
Definition rejection (sg : add_signal) : Prop :=
  match sg with
  | NameRequired | TargetReached | AlreadyExists _ => True
  | _ => False
  end.

(** Natural numbers as rationals, for counting. *)
Definition Qnat (n : nat) : Q := inject_Z (Z.of_nat n).

(** The world a node works on after its call of the rate limiter, and
    after the research agent has run. *)
Definition after_agent (e : research_env) (c : company) (reg' : list company)
    (w : world) : world :=
  log_call (ResearchInvoke (name c))
    (set_companies reg' (rate_limited (r_delays e) w)).

Definition after_report (e : research_env) (c : company) (reg' : list company)
    (report : string) (w : world) : world :=
  set_index (current_research_index w + 1)
    (set_csv (fst (add_company_to_csv (r_io_ok e) (set_report report c) (csv_file w)))
       (set_companies (update_at (current_research_index w) (set_report report) reg')
          (after_agent e c reg' w))).

(** The world at the end of the scripted run. *)
Definition scripted_end : world :=
  match run_graph (Finite 3) (mkDelays 0 0) three_companies_agent
                  raise_on_second (mkLimiter 0 0 1000) with
  | Some (w, _) => w
  | None => fresh_world (mkLimiter 0 0 1000)
  end.

(* ================================================================== *)
(** ** Configuration intake *)
(* ================================================================== *)

(** The four globals [get_user_requirements] sets. *)
Record requirements := mkRequirements {
  COMPANY_TYPE : string;
  LOCATION : string;
  TARGET_COMPANIES : target;
  SEARCH_QUERY : string
}.

(** The first two prompts: [input(...).strip()] is asked again until the
    answer is non-empty. [answers] are the lines the user types, in order;
    the result is the accepted answer and the lines not yet read, or [None]
    when the lines run out. *)
Fixpoint ask_text (answers : list string) : option (string * list string) :=
  match answers with
  | [] => None
  | line :: rest =>
      let answer := Text.strip line in
      if Text.truthy answer then Some (answer, rest) else ask_text rest
  end.

Section Intake.

(** [int(count_input)]: the integer a string denotes, [None] where [int]
    raises [ValueError]. *)
Variable int : string -> option Z.

(** The third prompt: an empty answer means unlimited; an answer [int]
    rejects, or a number below 1, is asked again. An interrupt at the
    prompt is not part of the model. *)
Fixpoint ask_count (answers : list string) : option (target * list string) :=
  match answers with
  | [] => None
  | line :: rest =>
      let count_input := Text.strip line in
      if negb (Text.truthy count_input) then Some (Unlimited, rest)
      else
        match int count_input with
        | None => ask_count rest
        | Some count =>
            if (count <? 1)%Z then ask_count rest
            else Some (Finite (Z.to_nat count), rest)
        end
  end.

(** [get_user_requirements]: the globals it sets and the lines left. *)
Definition get_user_requirements (answers : list string)
    : option (requirements * list string) :=
  match ask_text answers with
  | None => None
  | Some (company_type, answers1) =>
      match ask_text answers1 with
      | None => None
      | Some (location, answers2) =>
          match ask_count answers2 with
          | None => None
          | Some (count, rest) =>
              let query :=
                if String.eqb (Text.lower location) "global"
                then "top " ++ company_type ++ " companies worldwide"
                else "major " ++ company_type ++ " companies in " ++ location in
              Some (mkRequirements company_type location count query, rest)
          end
      end
  end.

(** An answer to the third prompt that is asked again. *)
Definition count_rejected (line : string) : Prop :=
  Text.strip line <> EmptyString
  /\ match int (Text.strip line) with
     | None => True
     | Some count => (count < 1)%Z
     end.

(** An answer to the third prompt that is accepted, with the target it
    sets. *)
Definition count_accepted (line : string) (t : target) : Prop :=
  (Text.strip line = EmptyString /\ t = Unlimited)
  \/ (Text.strip line <> EmptyString
      /\ exists count, int (Text.strip line) = Some count
                       /\ (1 <= count)%Z /\ t = Finite (Z.to_nat count)).

End Intake.

(** A line that the first two prompts ask again. *)
Definition blank_line (line : string) : Prop := Text.strip line = EmptyString.

(** A stand-in for [int] on plain digit strings, for running examples. *)
Fixpoint digits_value (acc : Z) (s : string) : option Z :=
  match s with
  | EmptyString => Some acc
  | String c s' =>
      let n := nat_of_ascii c in
      if (48 <=? n) && (n <=? 57)
      then digits_value (10 * acc + Z.of_nat (n - 48))%Z s'
      else None
  end.

Definition plain_int (s : string) : option Z :=
  match s with
  | EmptyString => None
  | _ => digits_value 0 s
  end.

(* ================================================================== *)
(** ** Further notions used in the statements *)
(* ================================================================== *)

(** A record as [add_discovered_company] creates it: a non-empty trimmed
    name, trimmed fields, no report yet. *)
Definition fresh_record (rec : company) : Prop :=
  name rec <> EmptyString
  /\ Text.strip (name rec) = name rec
  /\ Text.strip (location rec) = location rec
  /\ Text.strip (website rec) = website rec
  /\ Text.strip (services rec) = services rec
  /\ Text.strip (email rec) = email rec
  /\ Text.strip (contact_details rec) = contact_details rec
  /\ detailed_report rec = EmptyString.

(** A record of the registry at any time: as created, up to its report. *)
Definition kept_record (rec : company) : Prop :=
  name rec <> EmptyString /\ Text.strip (name rec) = name rec.

Definition is_rate_limit_call (c : call) : bool :=
  match c with RateLimitCall => true | _ => false end.

(** Number of rate-limiter calls in a call log. *)
Definition rate_limit_calls (cs : list call) : nat :=
  List.length (filter is_rate_limit_call cs).

(** The last message of an invocation carries neither of the two texts on
    which the discovery loop breaks. *)
Definition quiet_reply (o : outcome) : Prop :=
  match o with
  | Returned (Some m) =>
      Text.contains "Target reached" m = false
      /\ Text.contains "SUCCESS" m = false
  | _ => True
  end.

(** An agent that registers one candidate and answers with the text the
    tool returned. *)
Definition relay (c : candidate) : agent_run :=
  CallAdd c (fun answer => Reply (Some answer)).

(** What every registry of a run satisfies: unique keys, non-empty trimmed
    names, and a size within a finite target. *)
Definition registry_ok (t : target) (reg : list company) : Prop :=
  names_unique reg
  /\ Forall kept_record reg
  /\ match t with
     | Finite n => List.length reg <= n
     | Unlimited => True
     end.

(** [reg'] is [reg] with records appended as the tool creates them. *)
Definition grown_from (reg reg' : list company) : Prop :=
  exists extra, reg' = (reg ++ extra)%list /\ Forall fresh_record extra.

(** The records at or past the cursor carry no report. *)
Definition pending_unreported (w : world) : Prop :=
  forall i c, current_research_index w <= i ->
              nth_error (discovered_companies w) i = Some c ->
              detailed_report c = EmptyString.

(** What every world of a run satisfies. *)
Definition run_inv (t : target) (w : world) : Prop :=
  registry_ok t (discovered_companies w)
  /\ current_research_index w <= List.length (discovered_companies w)
  /\ pending_unreported w.

(** The CSV file holds the header and one row per record before the
    cursor, in registry order. *)
Definition rows_follow_registry (w : world) : Prop :=
  csv_file w
  = csv_header
    :: map csv_row (firstn (current_research_index w) (discovered_companies w)).

(* ================================================================== *)
(** * Properties *)
(* ================================================================== *)

(** Case analysis on one round of the loop. *)
Ltac loop_round t agent a w :=
  cbn [discovery_loop];
  destruct (negb (target_reached t (List.length (discovered_companies w)))
            && (a <? max_attempts)) eqn:Econd;
  [ destruct (run_agent t (agent (a + 1)) (discovered_companies w))
      as [[[last_message|]|err] reg'] eqn:Erun;
    [ destruct (Text.contains "Target reached" last_message
                || Text.contains "SUCCESS" last_message);
      [| destruct (Text.contains "already exists" last_message);
         [| destruct (max_attempts <=? a + 1) eqn:Emax ] ]
    | destruct (max_attempts <=? a + 1) eqn:Emax
    | ]
  | ].


(** ** Facts about the string operations *)

Lemma is_space_lower_char c : Text.is_space (Text.lower_char c) = Text.is_space c.
Proof.
  destruct c as [[] [] [] [] [] [] [] []]; reflexivity.
Qed.

Lemma lower_lstrip s : Text.lower (Text.lstrip s) = Text.lstrip (Text.lower s).
Proof.
  induction s as [|c s IH]; simpl; [reflexivity|].
  rewrite is_space_lower_char.
  destruct (Text.is_space c); [assumption | reflexivity].
Qed.

Lemma lower_rstrip s : Text.lower (Text.rstrip s) = Text.rstrip (Text.lower s).
Proof.
  induction s as [|c s IH]; simpl; [reflexivity|].
  rewrite <- IH, is_space_lower_char.
  destruct (Text.rstrip s); simpl; [destruct (Text.is_space c)|]; reflexivity.
Qed.

Lemma lower_strip s : Text.lower (Text.strip s) = Text.strip (Text.lower s).
Proof.
  unfold Text.strip. now rewrite lower_rstrip, lower_lstrip.
Qed.

Lemma rstrip_idem s : Text.rstrip (Text.rstrip s) = Text.rstrip s.
Proof.
  induction s as [|c s IH]; simpl; [reflexivity|].
  destruct (Text.rstrip s) as [|c' r] eqn:E.
  - destruct (Text.is_space c) eqn:Ec; simpl; [reflexivity | now rewrite Ec].
  - simpl in *. now rewrite IH.
Qed.

(** A string that does not start with a blank keeps its first character
    under [rstrip]. *)
Lemma lstrip_rstrip_headed c r :
  Text.is_space c = false ->
  Text.lstrip (Text.rstrip (String c r)) = Text.rstrip (String c r).
Proof.
  intros Hc. cbn [Text.rstrip].
  destruct (Text.rstrip r); [rewrite Hc|]; cbn [Text.lstrip]; now rewrite Hc.
Qed.

Lemma lstrip_headed s :
  Text.lstrip s = EmptyString \/
  exists c r, Text.lstrip s = String c r /\ Text.is_space c = false.
Proof.
  induction s as [|c s IH]; simpl; [now left|].
  destruct (Text.is_space c) eqn:Ec; [assumption|].
  right. now exists c, s.
Qed.

Lemma strip_idem s : Text.strip (Text.strip s) = Text.strip s.
Proof.
  unfold Text.strip.
  destruct (lstrip_headed s) as [E | (c & r & E & Hc)]; rewrite E.
  - reflexivity.
  - rewrite (lstrip_rstrip_headed c r Hc). apply rstrip_idem.
Qed.

Lemma prefix_app n s s' : prefix n s = true -> prefix n (s ++ s') = true.
Proof.
  revert s; induction n as [|a n IH]; intros s H;
    [destruct (s ++ s'); reflexivity|].
  destruct s as [|b s]; simpl in *; [discriminate|].
  destruct (ascii_dec a b); [now apply IH | discriminate].
Qed.

Lemma contains_app n s s' :
  Text.contains n s = true -> Text.contains n (s ++ s') = true.
Proof.
  induction s as [|b s IH]; intros H.
  - simpl in H. rewrite orb_false_r in H.
    destruct n; [destruct s'; reflexivity | discriminate].
  - cbn [Text.contains] in H. apply orb_true_iff in H.
    change (String b s ++ s') with (String b (s ++ s')).
    cbn [Text.contains]. apply orb_true_iff.
    destruct H as [H | H]; [left; now apply (prefix_app n (String b s)) | right; auto].
Qed.

(** ** Facts about the registry *)

Lemma truthy_false s : Text.truthy s = false <-> s = EmptyString.
Proof. destruct s; simpl; split; congruence. Qed.

Lemma name_check_blank given :
  negb (Text.truthy given) || negb (Text.truthy (Text.strip given)) = true
  <-> Text.strip given = EmptyString.
Proof.
  rewrite orb_true_iff, !negb_true_iff, !truthy_false. split.
  - intros [-> | H]; [reflexivity | assumption].
  - now right.
Qed.

Lemma name_taken_iff clean reg : name_taken clean reg = true <-> In clean (keys reg).
Proof.
  unfold name_taken, keys, name_key. rewrite existsb_exists, in_map_iff.
  split; intros (c & H1 & H2); exists c.
  - split; [|assumption]. apply String.eqb_eq in H2. now rewrite lower_strip.
  - split; [assumption|]. apply String.eqb_eq. now rewrite <- lower_strip.
Qed.

Lemma keys_app reg c : keys (reg ++ [c]) = (keys reg ++ [name_key (name c)])%list.
Proof. unfold keys. now rewrite map_app. Qed.

(** The four ways a call can go, with what each returns. *)
Lemma add_cases t c reg :
  (blank_name (company_name c) /\
     add_discovered_company t c reg = (NameRequired, reg))
  \/ (exists given, company_name c = Some given /\ Text.strip given <> EmptyString /\
      ((target_reached t (List.length reg) = true /\
          add_discovered_company t c reg = (TargetReached, reg))
       \/ (target_reached t (List.length reg) = false /\ In (name_key given) (keys reg) /\
            add_discovered_company t c reg = (AlreadyExists given, reg))
       \/ (target_reached t (List.length reg) = false /\ ~ In (name_key given) (keys reg) /\
            exists sg rec, add_discovered_company t c reg = (sg, (reg ++ [rec])%list) /\
                           name rec = Text.strip given /\ detailed_report rec = EmptyString /\
                           (sg = SuccessTarget (S (List.length reg)) \/ sg = Added given)))).
Proof.
  unfold add_discovered_company.
  destruct (company_name c) as [given|]; [|left; simpl; auto].
  destruct (negb (Text.truthy given) || negb (Text.truthy (Text.strip given))) eqn:Eb.
  - left. apply name_check_blank in Eb. simpl; auto.
  - right. exists given. split; [reflexivity|]. split.
    { intros H. apply name_check_blank in H. congruence. }
    destruct (target_reached t (List.length reg)) eqn:Et; [left; auto|right].
    fold (name_key given).
    destruct (name_taken (name_key given) reg) eqn:En.
    + left. apply name_taken_iff in En. auto.
    + right. split; [reflexivity|]. split.
      { intros H. apply name_taken_iff in H. congruence. }
      rewrite length_app, Nat.add_1_r. simpl List.length.
      destruct (target_reached t (S (List.length reg)));
        eexists; eexists; (split; [reflexivity|]); simpl; auto.
Qed.

Lemma add_unique t c reg :
  names_unique reg -> names_unique (snd (add_discovered_company t c reg)).
Proof.
  intros H.
  destruct (add_cases t c reg)
    as [[_ E] | (given & _ & _ & [[_ E] | [(_ & _ & E) | (_ & Hn & sg & rec & E & Hname & _)]])];
    rewrite E; simpl; try assumption.
  unfold names_unique. rewrite keys_app.
  apply NoDup_app; [assumption | repeat constructor; simpl; tauto |].
  intros k Hk [<- | []]. apply Hn.
  rewrite Hname in Hk. unfold name_key in Hk |- *. now rewrite strip_idem in Hk.
Qed.

Lemma add_all_unique t cs : forall reg,
  names_unique reg -> names_unique (add_all t cs reg).
Proof.
  induction cs as [|c cs IH]; intros reg H; simpl; [assumption|].
  apply IH, add_unique, H.
Qed.

Lemma add_length t c reg n :
  t = Finite n -> List.length reg <= n ->
  List.length (snd (add_discovered_company t c reg)) <= n.
Proof.
  intros -> H.
  destruct (add_cases (Finite n) c reg)
    as [[_ E] | (given & _ & _ & [[_ E] | [(_ & _ & E) | (Ht & _ & sg & rec & E & _)]])];
    rewrite E; simpl; try assumption.
  simpl in Ht. apply Nat.leb_gt in Ht. rewrite length_app. simpl. lia.
Qed.

(** What a call returns is decided by the first case that applies. *)
Lemma add_blank t c reg :
  blank_name (company_name c) -> add_discovered_company t c reg = (NameRequired, reg).
Proof.
  intros Hb.
  destruct (add_cases t c reg) as [[_ E] | (given & Hc & Hn & _)]; [assumption|].
  rewrite Hc in Hb. simpl in Hb. contradiction.
Qed.

Lemma add_full t c reg given :
  company_name c = Some given -> Text.strip given <> EmptyString ->
  target_reached t (List.length reg) = true ->
  add_discovered_company t c reg = (TargetReached, reg).
Proof.
  intros Hc Hn Ht.
  destruct (add_cases t c reg)
    as [[Hb _] | (g & Hg & _ & [[_ E] | [(Hf & _) | (Hf & _)]])];
    try assumption; try congruence.
  rewrite Hc in Hb. simpl in Hb. contradiction.
Qed.

Lemma add_duplicate t c reg given :
  company_name c = Some given -> Text.strip given <> EmptyString ->
  target_reached t (List.length reg) = false ->
  In (name_key given) (keys reg) ->
  add_discovered_company t c reg = (AlreadyExists given, reg).
Proof.
  intros Hc Hn Ht Hin.
  destruct (add_cases t c reg)
    as [[Hb _] | (g & Hg & _ & [[Hf _] | [(_ & _ & E) | (_ & Hnot & _)]])];
    try congruence.
  rewrite Hc in Hb. simpl in Hb. contradiction.
Qed.

Lemma add_fresh t c reg given :
  company_name c = Some given -> Text.strip given <> EmptyString ->
  target_reached t (List.length reg) = false ->
  ~ In (name_key given) (keys reg) ->
  exists sg rec,
    add_discovered_company t c reg = (sg, (reg ++ [rec])%list) /\
    name rec = Text.strip given /\ detailed_report rec = EmptyString /\
    (sg = SuccessTarget (S (List.length reg)) \/ sg = Added given).
Proof.
  intros Hc Hn Ht Hnot.
  destruct (add_cases t c reg)
    as [[Hb _] | (g & Hg & _ & [[Hf _] | [(_ & Hin & _) | (_ & _ & E)]])];
    try congruence.
  - rewrite Hc in Hb. simpl in Hb. contradiction.
  - rewrite Hc in Hg. injection Hg as <-. assumption.
Qed.

(** A call that rejects leaves the registry as it was. *)
Lemma add_rejection_keeps t c reg :
  rejection (fst (add_discovered_company t c reg)) ->
  snd (add_discovered_company t c reg) = reg.
Proof.
  destruct (add_cases t c reg)
    as [[_ E] | (given & _ & _ & [[_ E] | [(_ & _ & E) | (_ & _ & sg & rec & E & _ & _ & [-> | ->])]])];
    rewrite E; simpl; tauto.
Qed.

(** ** The claims about the registry *)

(** C1. Along every sequence of calls of [add_discovered_company] the
    registry holds no two records whose names are equal after trimming and
    case-folding; a candidate whose trimmed, case-folded name is already
    present is rejected and the registry stays as it is. *)
Theorem registry_never_holds_duplicates
    (t : target) (cs : list candidate) (reg : list company)
    (Hinv : names_unique reg) :
  names_unique (add_all t cs reg)
  /\ forall c given,
       company_name c = Some given ->
       In (name_key given) (keys (add_all t cs reg)) ->
       rejection (fst (add_discovered_company t c (add_all t cs reg)))
       /\ snd (add_discovered_company t c (add_all t cs reg)) = add_all t cs reg.
Proof.
  split; [now apply add_all_unique|].
  intros c given Hc Hin.
  destruct (add_cases t c (add_all t cs reg))
    as [[_ E] | (g & Hg & _ & [[_ E] | [(_ & _ & E) | (_ & Hnot & _)]])];
    try (rewrite E; simpl; tauto).
  rewrite Hc in Hg. injection Hg as <-. contradiction.
Qed.

Lemma registry_never_holds_duplicates_witness :
  names_unique
    (add_all (Finite 5) [named "Acme Corp"; named "acme corp "; named "Beta LLC"] []).
Proof.
  apply (registry_never_holds_duplicates (Finite 5)
           [named "Acme Corp"; named "acme corp "; named "Beta LLC"] []).
  constructor.
Defined.

(** C2. With a finite target the registry never grows beyond it along any
    sequence of calls; once it holds [target] records a call rejects the
    candidate and leaves the registry unchanged. *)
Theorem registry_never_exceeds_target
    (n : nat) (cs : list candidate) (reg : list company)
    (Hsize : List.length reg <= n) :
  List.length (add_all (Finite n) cs reg) <= n
  /\ forall c,
       List.length (add_all (Finite n) cs reg) = n ->
       (fst (add_discovered_company (Finite n) c (add_all (Finite n) cs reg)) = TargetReached
        \/ fst (add_discovered_company (Finite n) c (add_all (Finite n) cs reg)) = NameRequired)
       /\ snd (add_discovered_company (Finite n) c (add_all (Finite n) cs reg))
          = add_all (Finite n) cs reg.
Proof.
  assert (Hlen : forall cs reg, List.length reg <= n ->
                 List.length (add_all (Finite n) cs reg) <= n).
  { clear. intros cs. induction cs as [|c cs IH]; intros reg H; simpl; [assumption|].
    apply IH. now apply (add_length (Finite n)). }
  split; [now apply Hlen|].
  intros c Hfull.
  assert (Ht : target_reached (Finite n) (List.length (add_all (Finite n) cs reg)) = true).
  { simpl. apply Nat.leb_le. lia. }
  destruct (add_cases (Finite n) c (add_all (Finite n) cs reg))
    as [[_ E] | (g & Hg & _ & [[_ E] | [(Hf & _) | (Hf & _)]])];
    try congruence; rewrite E; simpl; auto.
Qed.

Lemma registry_never_exceeds_target_witness :
  List.length
    (add_all (Finite 2)
       [named "Acme Corp"; named "Beta LLC"; named "Gamma Inc"; named "Delta"] []) <= 2.
Proof.
  apply (registry_never_exceeds_target 2
           [named "Acme Corp"; named "Beta LLC"; named "Gamma Inc"; named "Delta"] []).
  simpl. lia.
Defined.

(** C7 as stated fails: with the registry at its target, a duplicate
    candidate gets the target-reached signal, not the duplicate signal. *)
Lemma duplicate_at_full_registry_counterexample :
  let reg := add_all (Finite 1) [named "Acme Corp"] [] in
  Text.strip "acme corp " <> EmptyString
  /\ In (name_key "acme corp ") (keys reg)
  /\ List.length reg = 1
  /\ add_discovered_company (Finite 1) (named "acme corp ") reg = (TargetReached, reg)
  /\ fst (add_discovered_company (Finite 1) (named "acme corp ") reg)
     <> AlreadyExists "acme corp ".
Proof.
  cbv zeta. repeat split; try reflexivity; try discriminate.
  left; reflexivity.
Qed.

(** C7, amended. The checks run in the order name, target, duplicate: a
    blank or absent name always gives the validation signal; a non-blank
    name gives the target-reached signal whenever the registry has reached
    the target, duplicate or not; the duplicate signal is given to a
    duplicate only while the registry is below the target; every rejection
    leaves the registry unchanged, and any other candidate is appended. *)
Theorem add_signal_order (t : target) (c : candidate) (reg : list company) :
  (blank_name (company_name c) ->
     add_discovered_company t c reg = (NameRequired, reg))
  /\ (forall given,
        company_name c = Some given -> Text.strip given <> EmptyString ->
        (target_reached t (List.length reg) = true ->
           add_discovered_company t c reg = (TargetReached, reg))
        /\ (target_reached t (List.length reg) = false ->
            In (name_key given) (keys reg) ->
            add_discovered_company t c reg = (AlreadyExists given, reg))
        /\ (target_reached t (List.length reg) = false ->
            ~ In (name_key given) (keys reg) ->
            exists sg rec,
              add_discovered_company t c reg = (sg, (reg ++ [rec])%list)
              /\ name rec = Text.strip given
              /\ (sg = SuccessTarget (S (List.length reg)) \/ sg = Added given)))
  /\ (rejection (fst (add_discovered_company t c reg)) ->
      snd (add_discovered_company t c reg) = reg).
Proof.
  split; [apply add_blank|]. split; [|apply add_rejection_keeps].
  intros given Hc Hn. repeat split.
  - now apply (add_full t c reg given).
  - now apply add_duplicate.
  - intros Ht Hnot.
    destruct (add_fresh t c reg given Hc Hn Ht Hnot) as (sg & rec & E & H1 & _ & H2).
    now exists sg, rec.
Qed.

Lemma add_signal_order_witness :
  add_discovered_company (Finite 3) (named "acme corp ")
    [mkCompany "Acme Corp" "" "" "" "" "" ""]
  = (AlreadyExists "acme corp ", [mkCompany "Acme Corp" "" "" "" "" "" ""]).
Proof.
  apply (proj1 (proj2 (proj1 (proj2
           (add_signal_order (Finite 3) (named "acme corp ")
              [mkCompany "Acme Corp" "" "" "" "" "" ""]))
           "acme corp " eq_refl ltac:(discriminate)))).
  - reflexivity.
  - left; reflexivity.
Defined.

(** ** Routing *)

Lemma error_marker_has_error m :
  is_error m -> Text.contains "ERROR" (marker_text m) = true.
Proof.
  destruct m; cbn [is_error marker_text]; try contradiction; intros _;
    unfold DISCOVERY_ERROR, RESEARCH_ERROR; apply contains_app; reflexivity.
Qed.

Lemma should_continue_error s w :
  Text.contains "ERROR" s = true -> should_continue s w = ToEnd.
Proof.
  intros H. unfold should_continue. rewrite H.
  now destruct (Text.contains "ALL_RESEARCH_COMPLETE" s).
Qed.

(** [should_continue] read off the source, for any message text. *)
Lemma should_continue_research_iff s w :
  should_continue s w = ToResearch <->
  Text.contains "ALL_RESEARCH_COMPLETE" s = false
  /\ Text.contains "ERROR" s = false
  /\ ((Text.contains "DISCOVERY_COMPLETE" s = true
       /\ 0 < List.length (discovered_companies w))
      \/ (Text.contains "RESEARCH_PROGRESS" s = true
          /\ current_research_index w < List.length (discovered_companies w))).
Proof.
  unfold should_continue.
  destruct (Text.contains "ALL_RESEARCH_COMPLETE" s); [intuition discriminate|].
  destruct (Text.contains "ERROR" s); [intuition discriminate|].
  destruct (Nat.ltb_spec 0 (List.length (discovered_companies w)));
    destruct (Nat.ltb_spec (current_research_index w)
                           (List.length (discovered_companies w)));
    destruct (Text.contains "DISCOVERY_COMPLETE" s);
    destruct (Text.contains "RESEARCH_PROGRESS" s);
    cbn [andb];
    try destruct (Nat.leb _ _ && true); try destruct (Nat.leb _ _ && false);
    intuition (discriminate || lia || auto).
Qed.

(** C3. [should_continue] is the transition table: it routes to the
    research step exactly when the marker is discovery-complete and the
    registry is non-empty, or the marker is research-progress and the
    cursor is below the registry length; it ends on an error marker, on
    all-research-complete, and, after a research step (or with the cursor
    still at 0, as it is after discovery), whenever the cursor is at or
    past the registry length, the case of a research-progress marker with
    the cursor equal to the length included. *)
Theorem should_continue_table (m : marker) (w : world) :
  (should_continue (marker_text m) w = ToResearch <->
     (m = MDiscoveryComplete /\ 0 < List.length (discovered_companies w))
     \/ (m = MResearchProgress
         /\ current_research_index w < List.length (discovered_companies w)))
  /\ (should_continue (marker_text m) w = ToEnd <->
      should_continue (marker_text m) w <> ToResearch)
  /\ (is_error m -> should_continue (marker_text m) w = ToEnd)
  /\ (m = MAllResearchComplete -> should_continue (marker_text m) w = ToEnd)
  /\ (from_research m \/ current_research_index w = 0 ->
      List.length (discovered_companies w) <= current_research_index w ->
      should_continue (marker_text m) w = ToEnd)
  /\ (m = MResearchProgress ->
      current_research_index w = List.length (discovered_companies w) ->
      should_continue (marker_text m) w = ToEnd).
Proof.
  assert (Htable :
    should_continue (marker_text m) w = ToResearch <->
     (m = MDiscoveryComplete /\ 0 < List.length (discovered_companies w))
     \/ (m = MResearchProgress
         /\ current_research_index w < List.length (discovered_companies w))).
  { rewrite should_continue_research_iff.
    destruct m; simpl marker_text;
      try (rewrite (error_marker_has_error (MDiscoveryError e) I)
           || rewrite (error_marker_has_error (MResearchError e) I));
      cbn; intuition (discriminate || auto). }
  assert (Hend : forall s, should_continue s w <> ToResearch -> should_continue s w = ToEnd).
  { intros s. destruct (should_continue s w); congruence. }
  split; [exact Htable|].
  split; [split; [congruence | apply Hend]|].
  split; [intros He; apply should_continue_error, error_marker_has_error, He|].
  split; [intros ->; reflexivity|].
  split.
  - intros Hphase Hle. apply Hend. rewrite Htable.
    intros [[-> Hpos] | [-> Hlt]]; [|lia].
    destruct Hphase as [[] | H0]. lia.
  - intros -> Heq. apply Hend. rewrite Htable.
    intros [[E _] | [_ Hlt]]; [discriminate | lia].
Qed.

Lemma should_continue_table_witness :
  should_continue (marker_text MResearchProgress)
    (mkWorld [mkCompany "Acme Corp" "" "" "" "" "" "r1"] 1 true
             (mkLimiter 0 0 0) initialize_csv [])
  = ToEnd.
Proof.
  apply (proj2 (proj2 (proj2 (proj2 (proj2
           (should_continue_table MResearchProgress
              (mkWorld [mkCompany "Acme Corp" "" "" "" "" "" "r1"] 1 true
                       (mkLimiter 0 0 0) initialize_csv []))))))).
  - reflexivity.
  - reflexivity.
Defined.

(** ** The rate limiter *)

Lemma Qltb_true x y : Qltb x y = true <-> (x < y)%Q.
Proof.
  unfold Qltb. rewrite negb_true_iff. split.
  - intros H. apply Qnot_le_lt. intros Hle. apply Qle_bool_iff in Hle. congruence.
  - intros H. destruct (Qle_bool y x) eqn:E; [|reflexivity].
    apply Qle_bool_iff in E. exfalso. apply (Qlt_not_le _ _ H E).
Qed.

Lemma Qltb_false x y : Qltb x y = false <-> (y <= x)%Q.
Proof.
  unfold Qltb. rewrite negb_false_iff. apply Qle_bool_iff.
Qed.

(** One call grants at least [MIN_REQUEST_INTERVAL] after the previous
    grant. *)
Lemma grant_after_interval d s :
  delays_ok d ->
  (last_request_time s + MIN_REQUEST_INTERVAL
   <= last_request_time (enhanced_rate_limit d s))%Q.
Proof.
  intros [_ Hlag]. unfold enhanced_rate_limit, MIN_REQUEST_INTERVAL.
  cbn [last_request_time].
  set (ct := (clock s + idle d)%Q).
  destruct (Qltb 60 (ct - last_request_time s));
    destruct (MAX_REQUESTS_PER_MINUTE <=? _);
    destruct (Qltb (ct - last_request_time s) 3) eqn:Eg;
    try (apply Qltb_true in Eg); try (apply Qltb_false in Eg); lra.
Qed.

(** When the counter stands at the cap, the grant comes at least 60 after
    the call was entered, and the counter starts again. *)
Lemma grant_after_cap d s :
  delays_ok d -> cap_hit d s ->
  (clock s + idle d + 60 <= last_request_time (enhanced_rate_limit d s))%Q
  /\ request_count (enhanced_rate_limit d s) = 1.
Proof.
  intros [_ Hlag] [Hwin Hcap]. unfold enhanced_rate_limit.
  cbn [last_request_time request_count]. unfold MIN_REQUEST_INTERVAL.
  rewrite Hwin.
  apply Nat.leb_le in Hcap. rewrite Hcap.
  split; [|reflexivity].
  destruct (Qltb (clock s + idle d - last_request_time s) 3) eqn:Eg;
    [apply Qltb_true in Eg | apply Qltb_false in Eg]; lra.
Qed.

Lemma grants_spaced ds : forall s,
  Forall delays_ok ds ->
  spaced MIN_REQUEST_INTERVAL (last_request_time s :: grant_times ds s).
Proof.
  induction ds as [|d ds IH]; intros s Hds; [simpl; auto|].
  inversion Hds as [|? ? Hd Hrest]; subst.
  unfold grant_times. cbn [grants map]. cbn [spaced]. split.
  - now apply grant_after_interval.
  - apply (IH (enhanced_rate_limit d s) Hrest).
Qed.

Lemma Qnat_S n : (Qnat (S n) == Qnat n + 1)%Q.
Proof.
  unfold Qnat. rewrite Nat2Z.inj_succ, <- Z.add_1_r, inject_Z_plus. reflexivity.
Qed.

Lemma count_in_window_cons from t ts :
  count_in_window from (t :: ts)
  = if in_window from t then S (count_in_window from ts)
    else count_in_window from ts.
Proof.
  unfold count_in_window. cbn [filter]. now destruct (in_window from t).
Qed.

Lemma in_window_iff from t :
  in_window from t = true <-> (from <= t /\ t <= from + 60)%Q.
Proof.
  unfold in_window. now rewrite andb_true_iff, !Qle_bool_iff.
Qed.

(** Instants 3 apart: those inside a window of 60, counted from a lower
    bound [lo] of the list. *)
Lemma spaced_window_count from ts : forall lo,
  spaced 3 (lo :: ts) ->
  count_in_window from ts = 0
  \/ ((3 * Qnat (count_in_window from ts) + lo <= from + 60)%Q
      /\ (3 * Qnat (count_in_window from ts) <= 63)%Q).
Proof.
  induction ts as [|h r IH]; intros lo Hsp; [now left|].
  destruct Hsp as [Hlo Hsp].
  specialize (IH h Hsp).
  rewrite count_in_window_cons.
  destruct (in_window from h) eqn:Ew.
  - right. apply in_window_iff in Ew. destruct Ew as [Hf Hh].
    rewrite Qnat_S.
    destruct IH as [-> | [H1 H2]].
    + change (Qnat 0) with 0%Q. split; lra.
    + split; lra.
  - destruct IH as [E | [H1 H2]]; [now left | right]. split; lra.
Qed.

Lemma Qnat_le_21 n : (3 * Qnat n <= 63)%Q -> n <= 21.
Proof.
  unfold Qnat, Qle, Qmult, inject_Z. cbn [Qnum Qden Pos.mul].
  lia.
Qed.

(** A call returns at the instant it stamps as the grant: nothing runs
    between [last_request_time = time.time()] and the return but the
    counter's increment. *)
Lemma return_at_grant d s :
  clock (enhanced_rate_limit d s) = last_request_time (enhanced_rate_limit d s).
Proof. reflexivity. Qed.

Lemma return_times_grants ds : forall s, return_times ds s = grant_times ds s.
Proof.
  unfold return_times, grant_times.
  induction ds as [|d ds IH]; intros s; [reflexivity|].
  cbn [grants map]. rewrite IH. now rewrite return_at_grant.
Qed.

(** The caller gets control back no earlier than it asked, and only after
    every sleep the call decided on. *)
Lemma return_after_entry d s :
  delays_ok d -> (clock s + idle d <= clock (enhanced_rate_limit d s))%Q.
Proof.
  intros [_ Hlag]. unfold enhanced_rate_limit, MIN_REQUEST_INTERVAL.
  cbn [clock].
  set (ct := (clock s + idle d)%Q).
  destruct (Qltb 60 (ct - last_request_time s));
    destruct (MAX_REQUESTS_PER_MINUTE <=? _);
    destruct (Qltb (ct - last_request_time s) 3) eqn:Eg;
    try (apply Qltb_true in Eg); try (apply Qltb_false in Eg); lra.
Qed.

(** C8. In every burst of calls of [enhanced_rate_limit], with a clock
    that does not run backwards and sleeps that last at least as long as
    asked, (a) consecutive grants are at least [MIN_REQUEST_INTERVAL]
    apart, and so are the instants at which the calls return to their
    callers, the first of them that long after the grant before the burst;
    (b) no rolling window of 60 holds more than [MAX_REQUESTS_PER_MINUTE]
    grants, nor that many returns; (c) every single call returns at the
    instant it stamps as its grant, no earlier than it was entered and at
    least [MIN_REQUEST_INTERVAL] after the previous grant; and (d) when the
    counter stands at the cap the call sleeps 60, so it returns no earlier
    than 60 after it was entered, and the counter starts again. *)
Theorem rate_limit_guarantees (ds : list delays) (s : limiter)
    (Hds : Forall delays_ok ds) :
  spaced MIN_REQUEST_INTERVAL (last_request_time s :: grant_times ds s)
  /\ (forall from : Q,
        count_in_window from (grant_times ds s) <= MAX_REQUESTS_PER_MINUTE)
  /\ (forall d s0, delays_ok d -> cap_hit d s0 ->
        (clock s0 + idle d + 60 <= last_request_time (enhanced_rate_limit d s0))%Q
        /\ request_count (enhanced_rate_limit d s0) = 1)
  /\ spaced MIN_REQUEST_INTERVAL (last_request_time s :: return_times ds s)
  /\ (forall from : Q,
        count_in_window from (return_times ds s) <= MAX_REQUESTS_PER_MINUTE)
  /\ (forall d s0, delays_ok d ->
        clock (enhanced_rate_limit d s0)
        = last_request_time (enhanced_rate_limit d s0)
        /\ (clock s0 + idle d <= clock (enhanced_rate_limit d s0))%Q
        /\ (last_request_time s0 + MIN_REQUEST_INTERVAL
            <= clock (enhanced_rate_limit d s0))%Q)
  /\ (forall d s0, delays_ok d -> cap_hit d s0 ->
        (clock s0 + idle d + 60 <= clock (enhanced_rate_limit d s0))%Q).
Proof.
  pose proof (grants_spaced ds s Hds) as Hsp.
  assert (Hwin : forall from : Q,
             count_in_window from (grant_times ds s) <= MAX_REQUESTS_PER_MINUTE).
  { intros from.
    destruct (spaced_window_count from (grant_times ds s) (last_request_time s) Hsp)
      as [-> | [_ H]].
    - apply Nat.le_0_l.
    - apply Qnat_le_21 in H. unfold MAX_REQUESTS_PER_MINUTE. lia. }
  rewrite return_times_grants.
  split; [exact Hsp|]. split; [exact Hwin|].
  split; [intros d s0; apply grant_after_cap|].
  split; [exact Hsp|]. split; [exact Hwin|]. split.
  - intros d s0 Hd. split; [apply return_at_grant|].
    split; [now apply return_after_entry|].
    rewrite return_at_grant. now apply grant_after_interval.
  - intros d s0 Hd Hcap. rewrite return_at_grant.
    now apply grant_after_cap.
Qed.

Lemma rate_limit_guarantees_witness :
  spaced MIN_REQUEST_INTERVAL
    (0%Q :: return_times [mkDelays 0 0; mkDelays 1 0; mkDelays 0 (1#2)]
                          (mkLimiter 0 0 1000)).
Proof.
  apply (rate_limit_guarantees
           [mkDelays 0 0; mkDelays 1 0; mkDelays 0 (1#2)] (mkLimiter 0 0 1000)).
  repeat constructor; unfold Qle; simpl; lia.
Defined.

(** ** The agents *)

Lemma add_extends t c reg :
  exists extra, snd (add_discovered_company t c reg) = (reg ++ extra)%list.
Proof.
  destruct (add_cases t c reg)
    as [[_ E] | (given & _ & _ & [[_ E] | [(_ & _ & E) | (_ & _ & sg & rec & E & _)]])];
    rewrite E; simpl; [exists [] | exists [] | exists [] | exists [rec]];
    now rewrite ?app_nil_r.
Qed.

(** An invocation only appends to the registry. *)
Lemma run_agent_extends t r : forall reg,
  exists extra, snd (run_agent t r reg) = (reg ++ extra)%list.
Proof.
  induction r as [content | err | args k IH]; intros reg; simpl.
  - exists []. now rewrite app_nil_r.
  - exists []. now rewrite app_nil_r.
  - destruct (add_extends t args reg) as [x Hx].
    destruct (add_discovered_company t args reg) as [sg reg1]. simpl in Hx. subst reg1.
    destruct (IH (signal_text t sg) (reg ++ x)%list) as [y Hy].
    exists (x ++ y)%list. now rewrite Hy, app_assoc.
Qed.

Lemma run_agent_no_raise t r : forall reg,
  no_raise r -> exists content, fst (run_agent t r reg) = Returned content.
Proof.
  induction r as [content | err | args k IH]; intros reg H; simpl in *.
  - now exists content.
  - contradiction.
  - destruct (add_discovered_company t args reg) as [sg reg1]. apply IH, H.
Qed.

(** ** Discovery *)

Lemma discovery_invokes_log cs c :
  discovery_invokes (cs ++ [c])
  = discovery_invokes cs + (if is_discovery_invoke c then 1 else 0).
Proof.
  unfold discovery_invokes. rewrite filter_app, length_app. simpl.
  now destruct (is_discovery_invoke c).
Qed.

(** With [max_attempts] rounds of fuel the loop is always left. *)
Lemma discovery_loop_total t agent : forall fuel a w,
  max_attempts <= fuel + a ->
  exists ex, discovery_loop fuel t agent a w = Some ex.
Proof.
  induction fuel as [|fuel IH]; intros a w Hfuel.
  - cbn [discovery_loop].
    assert (E : (a <? max_attempts) = false) by (apply Nat.ltb_ge; lia).
    rewrite E, andb_false_r. eauto.
  - loop_round t agent a w; eauto; apply IH; lia.
Qed.

(** What the loop leaves behind: the attempt counter stays within the
    budget, every attempt is one invocation, and nothing but the registry
    and the call log is touched. *)
Lemma discovery_loop_effect t agent : forall fuel a w ex,
  discovery_loop fuel t agent a w = Some ex ->
  a <= max_attempts ->
  a <= exit_attempts ex <= max_attempts
  /\ discovery_invokes (calls (exit_world ex))
     = discovery_invokes (calls w) + (exit_attempts ex - a)
  /\ current_research_index (exit_world ex) = current_research_index w
  /\ rate (exit_world ex) = rate w
  /\ csv_file (exit_world ex) = csv_file w.
Proof.
  induction fuel as [|fuel IH]; intros a w ex H Ha.
  - cbn [discovery_loop] in H.
    destruct (negb _ && _); [discriminate|].
    injection H as <-. simpl. repeat split; auto; lia.
  - revert H. loop_round t agent a w; intros H;
      try (injection H as <-; simpl;
           apply andb_true_iff in Econd; destruct Econd as [_ Hlt];
           apply Nat.ltb_lt in Hlt;
           rewrite ?discovery_invokes_log; simpl; repeat split; auto; lia);
      try (apply andb_true_iff in Econd; destruct Econd as [_ Hlt];
           apply Nat.ltb_lt in Hlt;
           apply IH in H; [|lia]; simpl in H;
           rewrite discovery_invokes_log in H; simpl in H;
           destruct H as (H1 & H2 & H3 & H4 & H5); repeat split; auto; lia).
    injection H as <-. simpl. repeat split; auto; lia.
Qed.

(** The call log grows by one [DiscoveryInvoke] per attempt and by
    nothing else. *)
Lemma discovery_loop_log t agent : forall fuel a w ex,
  discovery_loop fuel t agent a w = Some ex ->
  a <= max_attempts ->
  calls (exit_world ex)
  = (calls w ++ repeat DiscoveryInvoke (exit_attempts ex - a))%list.
Proof.
  induction fuel as [|fuel IH]; intros a w ex H Ha.
  - cbn [discovery_loop] in H.
    destruct (negb _ && _); [discriminate|].
    injection H as <-. cbn [exit_world exit_attempts].
    rewrite Nat.sub_diag. cbn [repeat]. now rewrite app_nil_r.
  - revert H. loop_round t agent a w; intros H;
      try (injection H as <-; cbn [exit_world exit_attempts log_call calls set_companies];
           replace (a + 1 - a) with 1 by lia; reflexivity);
      try (apply andb_true_iff in Econd; destruct Econd as [_ Hlt];
           apply Nat.ltb_lt in Hlt;
           pose proof (discovery_loop_effect t agent _ _ _ _ H ltac:(lia)) as (Hat & _);
           apply IH in H; [|lia]; rewrite H;
           cbn [log_call calls set_companies];
           replace (exit_attempts ex - a) with (S (exit_attempts ex - (a + 1))) by lia;
           cbn [repeat]; rewrite <- app_assoc; reflexivity).
    injection H as <-. cbn [exit_world exit_attempts].
    rewrite Nat.sub_diag. cbn [repeat]. now rewrite app_nil_r.
Qed.

(** The loop and the list of its invocations' outcomes: one outcome per
    attempt; the loop is left past its last statement exactly when every
    invocation returned, and by an exception exactly when the last one
    raised, with that exception. *)
Lemma discovery_outcomes_exit t agent : forall fuel a w ex,
  discovery_loop fuel t agent a w = Some ex ->
  a <= max_attempts ->
  List.length (discovery_outcomes fuel t agent a w) = exit_attempts ex - a
  /\ match ex with
     | LoopDone _ _ => Forall returned (discovery_outcomes fuel t agent a w)
     | LoopRaised err _ _ =>
         exists before,
           discovery_outcomes fuel t agent a w = (before ++ [Raised err])%list
           /\ Forall returned before
     end.
Proof.
  induction fuel as [|fuel IH]; intros a w ex H Ha.
  - cbn [discovery_loop discovery_outcomes] in *.
    destruct (negb _ && _); [discriminate|].
    injection H as <-. cbn [exit_attempts List.length]. split; [lia|constructor].
  - revert H. cbn [discovery_outcomes]. loop_round t agent a w; intros H;
      try (injection H as <-; cbn [exit_attempts List.length];
           split; [lia | repeat constructor]; fail);
      try (apply andb_true_iff in Econd; destruct Econd as [_ Hlt];
           apply Nat.ltb_lt in Hlt;
           pose proof (discovery_loop_effect t agent _ _ _ _ H ltac:(lia)) as (Hat & _);
           apply IH in H; [|lia]; destruct H as [Hlen Hex];
           cbn [List.length]; split; [lia|];
           destruct ex as [w1 a1 | err w1 a1];
           [ constructor; [exact I | exact Hex]
           | destruct Hex as (before & -> & Hb);
             eexists (_ :: before); split;
             [reflexivity | constructor; [exact I | exact Hb]] ]).
    injection H as <-. cbn [exit_attempts List.length]. split; [lia|].
    exists []. split; [reflexivity | constructor].
Qed.

(** The loop is left by an exception only if an invocation raises. *)
Lemma discovery_loop_no_raise t agent :
  (forall k, no_raise (agent k)) ->
  forall fuel a w ex,
    discovery_loop fuel t agent a w = Some ex ->
    exists w' a', ex = LoopDone w' a'.
Proof.
  intros Hagent. induction fuel as [|fuel IH]; intros a w ex H.
  - cbn [discovery_loop] in H. destruct (negb _ && _); [discriminate|].
    injection H as <-. eauto.
  - revert H. loop_round t agent a w; intros H;
      try (injection H as <-; eauto; fail); try (eapply IH; eassumption).
    destruct (run_agent_no_raise t (agent (a + 1)) (discovered_companies w)
                (Hagent (a + 1))) as [content Hc].
    rewrite Erun in Hc. discriminate.
Qed.

(** [discovery_node] returns one of the two discovery markers and does not
    touch the cursor or the CSV file. *)
Lemma discovery_node_frame t d agent w w' m :
  discovery_node t d agent w = Some (w', m) ->
  (exists mk, from_discovery mk /\ m = marker_text mk)
  /\ current_research_index w' = current_research_index w
  /\ csv_file w' = csv_file w.
Proof.
  unfold discovery_node.
  destruct (target_reached t (List.length (discovered_companies w))).
  - intros H. injection H as <- <-. split; [|split; reflexivity].
    exists MDiscoveryComplete. now split.
  - destruct (discovery_loop max_attempts t agent 0 (rate_limited d w))
      as [ex|] eqn:Hex; [|discriminate].
    destruct (discovery_loop_effect t agent _ _ _ _ Hex) as (_ & _ & Hi & _ & Hc);
      [unfold max_attempts; lia|].
    destruct ex as [w1 a1 | err w1 a1]; cbn [exit_world] in Hi, Hc;
      intros H; injection H as <- <-.
    + split; [exists MDiscoveryComplete; now split|]. now split.
    + split; [exists (MDiscoveryError err); now split|]. now split.
Qed.

(** C5 as stated fails: an agent that raises is a behaviour after which
    the node returns the error marker, not the discovery-complete one. *)
Lemma discovery_raising_agent_counterexample :
  let w := fresh_world (mkLimiter 0 0 1000) in
  exists w',
    discovery_node (Finite 2) (mkDelays 0 0) (fun _ => Raise "search failed") w
    = Some (w', DISCOVERY_ERROR "search failed")
    /\ DISCOVERY_ERROR "search failed" <> DISCOVERY_COMPLETE
    /\ discovery_complete w' = false.
Proof.
  cbv zeta. eexists. split; [vm_compute; reflexivity|].
  split; [discriminate | reflexivity].
Qed.

(** The loop does not touch the [discovery_complete] flag. *)
Lemma discovery_loop_flag t agent : forall fuel a w ex,
  discovery_loop fuel t agent a w = Some ex ->
  discovery_complete (exit_world ex) = discovery_complete w.
Proof.
  induction fuel as [|fuel IH]; intros a w ex H.
  - cbn [discovery_loop] in H. destruct (negb _ && _); [discriminate|].
    now injection H as <-.
  - revert H. loop_round t agent a w; intros H;
      try (injection H as <-; reflexivity);
      try (apply IH in H; exact H).
Qed.

(** An invocation that raises ends the loop at once, with its exception. *)
Lemma discovery_loop_raise t agent fuel a w err reg' :
  target_reached t (List.length (discovered_companies w)) = false ->
  a < max_attempts ->
  run_agent t (agent (a + 1)) (discovered_companies w) = (Raised err, reg') ->
  discovery_loop (S fuel) t agent a w
  = Some (LoopRaised err (log_call DiscoveryInvoke (set_companies reg' w)) (a + 1)).
Proof.
  intros Ht Ha Hrun. cbn [discovery_loop].
  apply Nat.ltb_lt in Ha. rewrite Ht, Ha, Hrun. reflexivity.
Qed.

Lemma discovery_error_not_complete err :
  DISCOVERY_ERROR err <> DISCOVERY_COMPLETE.
Proof. unfold DISCOVERY_ERROR, DISCOVERY_COMPLETE. discriminate. Qed.

(** C5, amended. For every behaviour of the external agent
    [discovery_node] returns, after at most [max_attempts] invocations of
    the agent, each of them logged. It returns the discovery-complete
    marker and sets the flag whenever none of the invocations it performs
    raises, whether or not the registry reached the target. When an
    invocation raises, that invocation is the last one, and the node
    returns the discovery-error marker with the exception's text, not the
    discovery-complete marker, and leaves the flag as it was; so it does
    after one invocation when the first one raises. *)
Theorem discovery_terminates_within_budget
    (t : target) (d : delays) (agent : nat -> agent_run) (w : world) :
  exists w' m,
    discovery_node t d agent w = Some (w', m)
    /\ discovery_invokes (calls w')
       <= discovery_invokes (calls w) + max_attempts
    /\ (m = DISCOVERY_COMPLETE \/ exists e, m = DISCOVERY_ERROR e)
    /\ ((forall k, no_raise (agent k)) ->
        m = DISCOVERY_COMPLETE /\ discovery_complete w' = true)
    /\ List.length (discovery_node_outcomes t d agent w) <= max_attempts
    /\ discovery_invokes (calls w')
       = discovery_invokes (calls w)
         + List.length (discovery_node_outcomes t d agent w)
    /\ (Forall returned (discovery_node_outcomes t d agent w) ->
        m = DISCOVERY_COMPLETE /\ discovery_complete w' = true)
    /\ (forall err, In (Raised err) (discovery_node_outcomes t d agent w) ->
        m = DISCOVERY_ERROR err
        /\ m <> DISCOVERY_COMPLETE
        /\ discovery_complete w' = discovery_complete w
        /\ exists before,
             discovery_node_outcomes t d agent w = (before ++ [Raised err])%list
             /\ Forall returned before)
    /\ (forall err reg',
        target_reached t (List.length (discovered_companies w)) = false ->
        run_agent t (agent 1) (discovered_companies w) = (Raised err, reg') ->
        m = DISCOVERY_ERROR err
        /\ discovery_complete w' = discovery_complete w
        /\ discovery_invokes (calls w') = discovery_invokes (calls w) + 1).
Proof.
  unfold discovery_node, discovery_node_outcomes.
  destruct (target_reached t (List.length (discovered_companies w))) eqn:Et.
  - do 2 eexists. split; [reflexivity|]. cbn [List.length In].
    cbn [set_discovery_complete calls discovery_complete].
    repeat split; auto; try lia; discriminate.
  - destruct (discovery_loop_total t agent max_attempts 0 (rate_limited d w))
      as [ex Hex]; [lia|].
    rewrite Hex.
    destruct (discovery_loop_effect t agent _ _ _ _ Hex) as (Ha & Hn & _);
      [unfold max_attempts; lia|].
    destruct (discovery_outcomes_exit t agent _ _ _ _ Hex) as (Hlen & Hout);
      [unfold max_attempts; lia|].
    pose proof (discovery_loop_flag t agent _ _ _ _ Hex) as Hflag.
    rewrite Hlen.
    assert (Hlog : discovery_invokes (calls (rate_limited d w))
                   = discovery_invokes (calls w)).
    { unfold rate_limited. simpl. rewrite discovery_invokes_log. simpl. lia. }
    destruct ex as [w' a' | err w' a'];
      cbn [exit_world exit_attempts] in Ha, Hn, Hlen, Hflag |- *.
    + do 2 eexists. split; [reflexivity|].
      cbn [set_discovery_complete calls discovery_complete].
      split; [lia|]. split; [now left|]. split; [auto|].
      split; [lia|]. split; [lia|]. split; [auto|].
      split.
      { intros err Hin. exfalso.
        rewrite Forall_forall in Hout. exact (Hout _ Hin). }
      intros err reg' _ Hfirst.
      pose proof (discovery_loop_raise t agent 9 0 (rate_limited d w) err reg'
                    Et ltac:(unfold max_attempts; lia) Hfirst) as Hraise.
      change (discovery_loop 10) with (discovery_loop max_attempts) in Hraise.
      rewrite Hraise in Hex.
      discriminate.
    + destruct Hout as (before & Eout & Hbefore).
      do 2 eexists. split; [reflexivity|].
      split; [lia|]. split; [right; eauto|]. split.
      { intros Hagent.
        destruct (discovery_loop_no_raise t agent Hagent _ _ _ _ Hex) as (? & ? & E).
        discriminate. }
      split; [lia|]. split; [lia|]. split.
      { intros Hall. exfalso. rewrite Eout in Hall.
        rewrite Forall_forall in Hall.
        apply (Hall (Raised err)). apply in_or_app. right. now left. }
      split.
      { intros err' Hin. rewrite Eout in Hin.
        assert (E : err' = err).
        { apply in_app_or in Hin. destruct Hin as [Hin | [Hin | []]].
          - rewrite Forall_forall in Hbefore. destruct (Hbefore _ Hin).
          - now injection Hin. }
        subst err'.
        split; [reflexivity|]. split; [apply discovery_error_not_complete|].
        split; [exact Hflag|].
        exists before. split; [exact Eout | exact Hbefore]. }
      intros err1 reg' _ Hfirst.
      pose proof (discovery_loop_raise t agent 9 0 (rate_limited d w) err1 reg'
                    Et ltac:(unfold max_attempts; lia) Hfirst) as Hraise.
      change (discovery_loop 10) with (discovery_loop max_attempts) in Hraise.
      rewrite Hraise in Hex.
      injection Hex as <- <- <-.
      split; [reflexivity|]. split; [exact Hflag|]. lia.
Qed.

Lemma discovery_terminates_within_budget_witness :
  exists w',
    discovery_node (Finite 1) (mkDelays 0 0)
      (fun _ => Reply (Some "I could not find any company"))
      (fresh_world (mkLimiter 0 0 1000))
    = Some (w', DISCOVERY_COMPLETE)
    /\ discovered_companies w' = []
    /\ discovery_invokes (calls w') = 10.
Proof.
  destruct (discovery_terminates_within_budget (Finite 1) (mkDelays 0 0)
              (fun _ => Reply (Some "I could not find any company"))
              (fresh_world (mkLimiter 0 0 1000)))
    as (w' & m & Hrun & _ & _ & _ & _ & _ & Hok & _ & _).
  destruct (Hok ltac:(vm_compute; repeat constructor)) as [-> _].
  exists w'. split; [exact Hrun|].
  vm_compute in Hrun. injection Hrun as <-. split; reflexivity.
Defined.

(** C10. Invoked with the registry already at or past the target,
    [discovery_node] returns the discovery-complete marker at once: the
    rate limiter and the discovery agent are not called, and the registry
    and the limiter state are as before. *)
Theorem discovery_node_already_complete
    (t : target) (d : delays) (agent : nat -> agent_run) (w : world)
    (Hfull : target_reached t (List.length (discovered_companies w)) = true) :
  exists w',
    discovery_node t d agent w = Some (w', DISCOVERY_COMPLETE)
    /\ discovered_companies w' = discovered_companies w
    /\ rate w' = rate w
    /\ calls w' = calls w
    /\ current_research_index w' = current_research_index w
    /\ csv_file w' = csv_file w
    /\ discovery_complete w' = true.
Proof.
  unfold discovery_node. rewrite Hfull.
  eexists. split; [reflexivity|]. simpl. repeat split.
Qed.

Lemma discovery_node_already_complete_witness :
  exists w',
    discovery_node (Finite 1) (mkDelays 5 0) (fun _ => Raise "never called")
      (mkWorld [mkCompany "Acme Corp" "" "" "" "" "" ""] 0 false
               (mkLimiter 990 7 1000) initialize_csv [])
    = Some (w', DISCOVERY_COMPLETE)
    /\ discovered_companies w' = [mkCompany "Acme Corp" "" "" "" "" "" ""]
    /\ rate w' = mkLimiter 990 7 1000
    /\ calls w' = [].
Proof.
  destruct (discovery_node_already_complete (Finite 1) (mkDelays 5 0)
              (fun _ => Raise "never called")
              (mkWorld [mkCompany "Acme Corp" "" "" "" "" "" ""] 0 false
                       (mkLimiter 990 7 1000) initialize_csv []))
    as (w' & H1 & H2 & H3 & H4 & _).
  - reflexivity.
  - exists w'. repeat split; assumption.
Defined.

(** ** Research *)

Lemma update_at_length {A} (f : A -> A) l : forall i,
  List.length (update_at i f l) = List.length l.
Proof.
  induction l as [|x l IH]; intros [|i]; simpl; auto.
Qed.

Lemma update_at_nth {A} (f : A -> A) l : forall i x,
  nth_error l i = Some x -> nth_error (update_at i f l) i = Some (f x).
Proof.
  induction l as [|y l IH]; intros [|i] x H; simpl in *; try discriminate.
  - now injection H as ->.
  - now apply IH.
Qed.

Lemma update_at_other {A} (f : A -> A) l : forall i j,
  i <> j -> nth_error (update_at i f l) j = nth_error l j.
Proof.
  induction l as [|y l IH]; intros [|i] [|j] H; simpl; auto; try lia.
Qed.

(** The paths through [research_node]. *)
Lemma research_node_cases t e w :
  (List.length (discovered_companies w) <= current_research_index w
   /\ research_node t e w = (rate_limited (r_delays e) w, ALL_RESEARCH_COMPLETE))
  \/ exists c out reg',
       current_research_index w < List.length (discovered_companies w)
       /\ nth_error (discovered_companies w) (current_research_index w) = Some c
       /\ run_agent t (r_agent e) (discovered_companies w) = (out, reg')
       /\ research_node t e w
          = match out with
            | Raised err => (after_agent e c reg' w, RESEARCH_ERROR err)
            | Returned None =>
                (after_agent e c reg' w, RESEARCH_ERROR "list index out of range")
            | Returned (Some report) =>
                (after_report e c reg' report w, RESEARCH_PROGRESS)
            end.
Proof.
  unfold research_node.
  cbn [rate_limited log_call discovered_companies current_research_index].
  destruct (Nat.leb_spec (List.length (discovered_companies w))
                         (current_research_index w)) as [Hle | Hlt].
  - left. split; [assumption | reflexivity].
  - right.
    destruct (nth_error (discovered_companies w) (current_research_index w))
      as [c|] eqn:Enth.
    2:{ apply nth_error_None in Enth. lia. }
    destruct (run_agent t (r_agent e) (discovered_companies w)) as [out reg'] eqn:Erun.
    exists c, out, reg'. repeat split; try assumption.
    destruct out as [[report|]|err]; try reflexivity.
    unfold after_report, after_agent.
    cbn [rate_limited log_call set_companies set_csv set_index
         discovered_companies current_research_index csv_file].
    destruct (add_company_to_csv (r_io_ok e) (set_report report c) (csv_file w));
      reflexivity.
Qed.

(** The cursor never moves back, moves by at most one, and stays within
    the registry; the registry never shrinks. *)
Lemma research_node_cursor t e w :
  current_research_index w <= List.length (discovered_companies w) ->
  current_research_index w <= current_research_index (fst (research_node t e w))
  /\ current_research_index (fst (research_node t e w)) <= current_research_index w + 1
  /\ current_research_index (fst (research_node t e w))
     <= List.length (discovered_companies (fst (research_node t e w))).
Proof.
  intros Hinv.
  destruct (research_node_cases t e w)
    as [[Hle E] | (c & out & reg' & Hlt & Hnth & Hrun & E)]; rewrite E.
  - simpl. lia.
  - destruct (run_agent_extends t (r_agent e) (discovered_companies w)) as [x Hx].
    rewrite Hrun in Hx. simpl in Hx. subst reg'.
    destruct out as [[report|]|err]; simpl;
      rewrite ?update_at_length, ?length_app; lia.
Qed.

(** The marker of a research step that is not an error, and what it says
    about the cursor. *)
Lemma research_node_marker t e w :
  (snd (research_node t e w) = ALL_RESEARCH_COMPLETE
   /\ List.length (discovered_companies w) <= current_research_index w
   /\ fst (research_node t e w) = rate_limited (r_delays e) w)
  \/ snd (research_node t e w) = RESEARCH_PROGRESS
  \/ exists err, snd (research_node t e w) = RESEARCH_ERROR err.
Proof.
  destruct (research_node_cases t e w)
    as [[Hle E] | (c & out & reg' & Hlt & Hnth & Hrun & E)]; rewrite E.
  - left. auto.
  - destruct out as [[report|]|err]; simpl; eauto.
Qed.

(** [research_node] returns one of the three research markers. *)
Lemma research_node_marker_text t e w :
  exists mk, from_research mk /\ snd (research_node t e w) = marker_text mk.
Proof.
  destruct (research_node_marker t e w) as [(E & _) | [E | [err E]]]; rewrite E.
  - exists MAllResearchComplete. now split.
  - exists MResearchProgress. now split.
  - exists (MResearchError err). now split.
Qed.

Lemma research_error_has_error err :
  Text.contains "ERROR" (RESEARCH_ERROR err) = true.
Proof. apply (error_marker_has_error (MResearchError err) I). Qed.

(** A research phase that ends without an error marker ends with the
    cursor at the registry length. *)
Lemma research_phase_completes t envs : forall steps k w wf mf,
  current_research_index w <= List.length (discovered_companies w) ->
  research_phase steps t envs k w = Some (wf, mf) ->
  Text.contains "ERROR" mf = false ->
  current_research_index wf = List.length (discovered_companies wf).
Proof.
  induction steps as [|steps IH]; intros k w wf mf Hinv H Hok; [discriminate|].
  cbn [research_phase] in H.
  pose proof (research_node_cursor t (envs k) w Hinv) as (_ & _ & Hinv').
  pose proof (research_node_marker t (envs k) w) as Hm.
  destruct (research_node t (envs k) w) as [w' m]. simpl in Hinv', Hm.
  destruct (should_continue m w') eqn:Esc.
  - apply (IH (S k) w' wf mf Hinv' H Hok).
  - injection H as <- <-.
    destruct Hm as [(-> & Hle & ->) | [-> | [err ->]]].
    + simpl in *. lia.
    + destruct (Nat.lt_ge_cases (current_research_index w')
                                (List.length (discovered_companies w'))) as [Hlt | Hge];
        [|lia].
      assert (should_continue RESEARCH_PROGRESS w' = ToResearch).
      { apply should_continue_research_iff. repeat split; auto. }
      congruence.
    + rewrite research_error_has_error in Hok. discriminate.
Qed.

Lemma nth_error_pending {A} (l : list A) i x :
  nth_error l i = Some x -> i < List.length l.
Proof. intros H. apply nth_error_Some. congruence. Qed.

(** What a research step does when the agent returns a report. *)
Lemma research_node_report t e w c report reg' :
  nth_error (discovered_companies w) (current_research_index w) = Some c ->
  run_agent t (r_agent e) (discovered_companies w) = (Returned (Some report), reg') ->
  research_node t e w = (after_report e c reg' report w, RESEARCH_PROGRESS)
  /\ nth_error (discovered_companies (after_report e c reg' report w))
               (current_research_index w)
     = Some (set_report report c).
Proof.
  intros Hnth Hrun.
  destruct (research_node_cases t e w)
    as [[Hle _] | (c0 & out & reg0 & Hlt & Hnth0 & Hrun0 & E)].
  - apply nth_error_pending in Hnth. lia.
  - rewrite Hnth in Hnth0. injection Hnth0 as <-.
    rewrite Hrun in Hrun0. injection Hrun0 as <- <-.
    split; [exact E|].
    unfold after_report. cbn [set_index set_csv set_companies discovered_companies].
    apply update_at_nth.
    destruct (run_agent_extends t (r_agent e) (discovered_companies w)) as [x Hx].
    rewrite Hrun in Hx. simpl in Hx. subst reg'.
    rewrite nth_error_app1; [assumption | now apply nth_error_pending in Hnth].
Qed.

(** C4 as stated fails: with the cursor at the registry length the node
    still calls the rate limiter first, so the limiter's globals change. *)
Lemma research_at_end_touches_limiter_counterexample :
  let w := mkWorld [mkCompany "Acme Corp" "" "" "" "" "" "report"] 1 true
                   (mkLimiter 1000 3 1001)
                   [csv_header; csv_row (mkCompany "Acme Corp" "" "" "" "" "" "report")]
                   [] in
  let e := mkEnv (mkDelays 0 0) (Reply (Some "unused")) true in
  snd (research_node (Finite 1) e w) = ALL_RESEARCH_COMPLETE
  /\ request_count (rate w) = 3
  /\ request_count (rate (fst (research_node (Finite 1) e w))) = 4
  /\ calls (fst (research_node (Finite 1) e w)) = [RateLimitCall]
  /\ fst (research_node (Finite 1) e w) <> w.
Proof.
  cbv zeta. repeat split.
  intros H. apply (f_equal (fun x => request_count (rate x))) in H.
  vm_compute in H. discriminate.
Qed.

(** Every invocation of [research_node] starts with its call of the rate
    limiter, whatever the cursor, the agent and the CSV write do. *)
Lemma research_node_limiter_first t e w :
  rate (fst (research_node t e w)) = enhanced_rate_limit (r_delays e) (rate w)
  /\ exists rest,
       calls (fst (research_node t e w))
       = (calls w ++ RateLimitCall :: rest)%list
       /\ rate_limit_calls rest = 0.
Proof.
  destruct (research_node_cases t e w)
    as [[Hle E] | (c & out & reg' & Hlt & Hnth & Hrun & E)]; rewrite E.
  - split; [reflexivity|]. exists []. split; reflexivity.
  - assert (H : rate (after_agent e c reg' w)
                = enhanced_rate_limit (r_delays e) (rate w)
                /\ calls (after_agent e c reg' w)
                   = (calls w ++ [RateLimitCall; ResearchInvoke (name c)])%list).
    { unfold after_agent, rate_limited.
      cbn [log_call set_companies rate calls]. split; [reflexivity|].
      now rewrite <- app_assoc. }
    destruct H as [Hrate Hcalls].
    split.
    + destruct out as [[report|]|err]; cbn [fst]; exact Hrate.
    + exists [ResearchInvoke (name c)]. split; [|reflexivity].
      destruct out as [[report|]|err]; cbn [fst]; exact Hcalls.
Qed.

(** C4, amended. Each invocation of [research_node] handles at most one
    pending record, and it first calls the rate limiter: on every path the
    limiter state after the node is that of one call of
    [enhanced_rate_limit], and that call is the first the node makes. With
    the cursor at or past the registry length it then returns the
    all-research-complete marker and leaves the registry, the cursor, the
    CSV file and the flag as they are, having called nothing but the
    limiter. With a record pending and the agent returning a report, it
    invokes the agent for that record after the limiter, stores the text
    verbatim in [detailed_report] of the record at the cursor, hands that
    record to [add_company_to_csv], moves the cursor by exactly one and
    returns the research-progress marker. The cursor never decreases; from
    a cursor within the registry it stays within the registry, and it
    equals the registry size when the research phase ends without an
    error. *)
Theorem research_node_one_record
    (t : target) (e : research_env) (w : world) :
  (rate (fst (research_node t e w)) = enhanced_rate_limit (r_delays e) (rate w)
   /\ exists rest,
        calls (fst (research_node t e w))
        = (calls w ++ RateLimitCall :: rest)%list
        /\ rate_limit_calls rest = 0)
  /\ (List.length (discovered_companies w) <= current_research_index w ->
      snd (research_node t e w) = ALL_RESEARCH_COMPLETE
      /\ discovered_companies (fst (research_node t e w)) = discovered_companies w
      /\ current_research_index (fst (research_node t e w)) = current_research_index w
      /\ csv_file (fst (research_node t e w)) = csv_file w
      /\ discovery_complete (fst (research_node t e w)) = discovery_complete w
      /\ rate (fst (research_node t e w)) = enhanced_rate_limit (r_delays e) (rate w)
      /\ calls (fst (research_node t e w)) = (calls w ++ [RateLimitCall])%list)
  /\ (forall c report reg',
        nth_error (discovered_companies w) (current_research_index w) = Some c ->
        run_agent t (r_agent e) (discovered_companies w)
          = (Returned (Some report), reg') ->
        snd (research_node t e w) = RESEARCH_PROGRESS
        /\ current_research_index (fst (research_node t e w))
           = current_research_index w + 1
        /\ discovered_companies (fst (research_node t e w))
           = update_at (current_research_index w) (set_report report) reg'
        /\ (exists extra, reg' = (discovered_companies w ++ extra)%list)
        /\ nth_error (discovered_companies (fst (research_node t e w)))
                     (current_research_index w)
           = Some (set_report report c)
        /\ detailed_report (set_report report c) = report
        /\ csv_file (fst (research_node t e w))
           = fst (add_company_to_csv (r_io_ok e) (set_report report c) (csv_file w))
        /\ (r_io_ok e = true ->
            csv_file (fst (research_node t e w))
            = (csv_file w ++ [csv_row (set_report report c)])%list)
        /\ rate (fst (research_node t e w))
           = enhanced_rate_limit (r_delays e) (rate w)
        /\ calls (fst (research_node t e w))
           = (calls w ++ [RateLimitCall; ResearchInvoke (name c)])%list)
  /\ current_research_index w <= current_research_index (fst (research_node t e w))
  /\ (current_research_index w <= List.length (discovered_companies w) ->
      current_research_index (fst (research_node t e w))
      <= List.length (discovered_companies (fst (research_node t e w)))
      /\ (forall steps envs k wf mf,
            research_phase steps t envs k w = Some (wf, mf) ->
            Text.contains "ERROR" mf = false ->
            current_research_index wf = List.length (discovered_companies wf))).
Proof.
  split; [apply research_node_limiter_first|].
  split; [|split; [|split]].
  - intros Hge.
    destruct (research_node_cases t e w)
      as [[_ E] | (c & out & reg' & Hlt & _)]; [|lia].
    rewrite E. cbn [fst snd]. unfold rate_limited.
    cbn [log_call discovered_companies current_research_index csv_file
         discovery_complete rate calls].
    repeat split.
  - intros c report reg' Hnth Hrun.
    destruct (research_node_report t e w c report reg' Hnth Hrun) as [E Hat].
    rewrite E. cbn [fst snd]. split; [reflexivity|].
    split; [reflexivity|]. split; [reflexivity|].
    split.
    { destruct (run_agent_extends t (r_agent e) (discovered_companies w)) as [x Hx].
      rewrite Hrun in Hx. now exists x. }
    split; [exact Hat|].
    split; [reflexivity|]. split; [reflexivity|].
    split.
    { intros Hok. unfold after_report. cbn [set_index set_csv csv_file].
      now rewrite Hok. }
    unfold after_report, after_agent, rate_limited.
    cbn [set_index set_csv set_companies log_call rate calls].
    split; [reflexivity|]. now rewrite <- app_assoc.
  - destruct (research_node_cases t e w)
      as [[Hle E] | (c & out & reg' & Hlt & Hnth & Hrun & E)]; rewrite E.
    + cbn [fst]. unfold rate_limited. cbn [log_call current_research_index]. lia.
    + destruct out as [[report|]|err]; cbn [fst];
        unfold after_report, after_agent, rate_limited;
        cbn [set_index set_csv set_companies log_call current_research_index]; lia.
  - intros Hinv.
    pose proof (research_node_cursor t e w Hinv) as (_ & _ & H3).
    split; [exact H3|].
    intros steps envs k wf mf. now apply research_phase_completes.
Qed.

Lemma research_node_one_record_witness :
  snd (research_node (Finite 2)
         (mkEnv (mkDelays 0 0) (Reply (Some "Report on Acme")) true)
         (mkWorld [mkCompany "Acme Corp" "" "" "" "" "" "";
                   mkCompany "Beta LLC" "" "" "" "" "" ""] 0 true
                  (mkLimiter 0 0 1000) initialize_csv []))
  = RESEARCH_PROGRESS
  /\ calls (fst (research_node (Finite 2)
         (mkEnv (mkDelays 0 0) (Reply (Some "Report on Acme")) true)
         (mkWorld [mkCompany "Acme Corp" "" "" "" "" "" "";
                   mkCompany "Beta LLC" "" "" "" "" "" ""] 0 true
                  (mkLimiter 0 0 1000) initialize_csv [])))
     = [RateLimitCall; ResearchInvoke "Acme Corp"].
Proof.
  destruct (proj1 (proj2 (proj2
           (research_node_one_record (Finite 2)
              (mkEnv (mkDelays 0 0) (Reply (Some "Report on Acme")) true)
              (mkWorld [mkCompany "Acme Corp" "" "" "" "" "" "";
                        mkCompany "Beta LLC" "" "" "" "" "" ""] 0 true
                       (mkLimiter 0 0 1000) initialize_csv []))))
         (mkCompany "Acme Corp" "" "" "" "" "" "") "Report on Acme"
         [mkCompany "Acme Corp" "" "" "" "" "" "";
          mkCompany "Beta LLC" "" "" "" "" "" ""]
         eq_refl eq_refl)
    as (Hm & _ & _ & _ & _ & _ & _ & _ & _ & Hc).
  split; [exact Hm | exact Hc].
Defined.

(** C6. If the research agent raises while the record at cursor position
    [k] is processed, [research_node] returns a research-error marker, the
    cursor stays at [k], nothing is written to the CSV file and the graph
    ends; in the run with three discovered companies and the agent raising
    on the second, one row is persisted and the cursor is left at 1. *)
Theorem research_agent_failure_stops
    (t : target) (e : research_env) (w : world) (err : string)
    (reg' : list company)
    (Hpending : current_research_index w < List.length (discovered_companies w))
    (Hraise : run_agent t (r_agent e) (discovered_companies w) = (Raised err, reg')) :
  snd (research_node t e w) = RESEARCH_ERROR err
  /\ current_research_index (fst (research_node t e w)) = current_research_index w
  /\ csv_file (fst (research_node t e w)) = csv_file w
  /\ should_continue (snd (research_node t e w)) (fst (research_node t e w)) = ToEnd
  /\ exists wf,
       run_graph (Finite 3) (mkDelays 0 0) three_companies_agent
                 raise_on_second (mkLimiter 0 0 1000)
       = Some (wf, RESEARCH_ERROR "search quota exceeded")
       /\ map name (discovered_companies wf) = ["Acme Corp"; "Beta LLC"; "Gamma Inc"]
       /\ csv_file wf
          = [csv_header; ["Acme Corp"; ""; ""; ""; ""; ""; "Report on Acme Corp"]]
       /\ current_research_index wf = 1.
Proof.
  destruct (research_node_cases t e w)
    as [[Hle _] | (c & out & reg0 & _ & _ & Hrun & E)]; [lia|].
  rewrite Hraise in Hrun. injection Hrun as <- <-.
  rewrite E. cbn [fst snd].
  split; [reflexivity|]. split; [reflexivity|]. split; [reflexivity|].
  split; [apply should_continue_error, research_error_has_error|].
  eexists. split; [vm_compute; reflexivity|]. repeat split.
Qed.

Lemma research_agent_failure_stops_witness :
  current_research_index
    (fst (research_node (Finite 3) (raise_on_second 1)
            (mkWorld [mkCompany "Acme Corp" "" "" "" "" "" "Report on Acme Corp";
                      mkCompany "Beta LLC" "" "" "" "" "" "";
                      mkCompany "Gamma Inc" "" "" "" "" "" ""] 1 true
                     (mkLimiter 1000 1 1000) initialize_csv [])))
  = 1.
Proof.
  apply (proj1 (proj2
           (research_agent_failure_stops (Finite 3) (raise_on_second 1)
              (mkWorld [mkCompany "Acme Corp" "" "" "" "" "" "Report on Acme Corp";
                        mkCompany "Beta LLC" "" "" "" "" "" "";
                        mkCompany "Gamma Inc" "" "" "" "" "" ""] 1 true
                       (mkLimiter 1000 1 1000) initialize_csv [])
              "search quota exceeded"
              [mkCompany "Acme Corp" "" "" "" "" "" "Report on Acme Corp";
               mkCompany "Beta LLC" "" "" "" "" "" "";
               mkCompany "Gamma Inc" "" "" "" "" "" ""]
              ltac:(simpl; lia) eq_refl))).
Defined.

(** C9. A failed CSV write does not stop the research phase:
    [add_company_to_csv] catches the exception and returns [False], and
    [research_node] still keeps the report on the record, moves the cursor
    by one and returns the research-progress marker, not an error marker. *)
Theorem csv_failure_does_not_stop_research
    (t : target) (e : research_env) (w : world) (c : company)
    (report : string) (reg' : list company)
    (Hfail : r_io_ok e = false)
    (Hnth : nth_error (discovered_companies w) (current_research_index w) = Some c)
    (Hrun : run_agent t (r_agent e) (discovered_companies w)
            = (Returned (Some report), reg')) :
  add_company_to_csv (r_io_ok e) (set_report report c) (csv_file w)
    = (csv_file w, false)
  /\ snd (research_node t e w) = RESEARCH_PROGRESS
  /\ Text.contains "ERROR" (snd (research_node t e w)) = false
  /\ should_continue (snd (research_node t e w)) (fst (research_node t e w))
     = (if current_research_index w + 1
           <? List.length (discovered_companies (fst (research_node t e w)))
        then ToResearch else ToEnd)
  /\ current_research_index (fst (research_node t e w)) = current_research_index w + 1
  /\ nth_error (discovered_companies (fst (research_node t e w)))
               (current_research_index w)
     = Some (set_report report c)
  /\ detailed_report (set_report report c) = report
  /\ csv_file (fst (research_node t e w)) = csv_file w.
Proof.
  destruct (research_node_report t e w c report reg' Hnth Hrun) as [E Hat].
  rewrite E. cbn [fst snd]. rewrite Hfail.
  split; [reflexivity|]. split; [reflexivity|]. split; [reflexivity|].
  split.
  { unfold should_continue, RESEARCH_PROGRESS.
    change (Text.contains "ALL_RESEARCH_COMPLETE" "RESEARCH_PROGRESS") with false.
    change (Text.contains "ERROR" "RESEARCH_PROGRESS") with false.
    change (Text.contains "DISCOVERY_COMPLETE" "RESEARCH_PROGRESS") with false.
    change (Text.contains "RESEARCH_PROGRESS" "RESEARCH_PROGRESS") with true.
    cbn [andb].
    change (current_research_index (after_report e c reg' report w))
      with (current_research_index w + 1).
    destruct (_ <? _); [reflexivity|]. now destruct (_ && _). }
  split; [reflexivity|]. split; [exact Hat|]. split; [reflexivity|].
  unfold after_report. cbn [set_index set_csv csv_file]. now rewrite Hfail.
Qed.

Lemma csv_failure_does_not_stop_research_witness :
  snd (research_node (Finite 2)
         (mkEnv (mkDelays 0 0) (Reply (Some "Report on Acme")) false)
         (mkWorld [mkCompany "Acme Corp" "" "" "" "" "" "";
                   mkCompany "Beta LLC" "" "" "" "" "" ""] 0 true
                  (mkLimiter 0 0 1000) initialize_csv []))
  = RESEARCH_PROGRESS.
Proof.
  apply (proj1 (proj2
           (csv_failure_does_not_stop_research (Finite 2)
              (mkEnv (mkDelays 0 0) (Reply (Some "Report on Acme")) false)
              (mkWorld [mkCompany "Acme Corp" "" "" "" "" "" "";
                        mkCompany "Beta LLC" "" "" "" "" "" ""] 0 true
                       (mkLimiter 0 0 1000) initialize_csv [])
              (mkCompany "Acme Corp" "" "" "" "" "" "") "Report on Acme"
              [mkCompany "Acme Corp" "" "" "" "" "" "";
               mkCompany "Beta LLC" "" "" "" "" "" ""]
              eq_refl eq_refl eq_refl))).
Defined.

(* ================================================================== *)
(** * Further properties of the code *)
(* ================================================================== *)

(** ** Configuration intake *)

Lemma truthy_true s : Text.truthy s = true <-> s <> EmptyString.
Proof. destruct s; simpl; split; congruence. Qed.

Lemma ask_text_accepts answers answer rest :
  ask_text answers = Some (answer, rest) ->
  answer <> EmptyString /\ Text.strip answer = answer
  /\ exists skipped line,
       answers = (skipped ++ line :: rest)%list
       /\ Forall blank_line skipped /\ answer = Text.strip line.
Proof.
  induction answers as [|line more IH]; intros H; [discriminate|].
  cbn [ask_text] in H.
  destruct (Text.truthy (Text.strip line)) eqn:E.
  - injection H as <- <-. apply truthy_true in E.
    split; [assumption|]. split; [apply strip_idem|].
    exists [], line. repeat split. constructor.
  - apply truthy_false in E.
    destruct (IH H) as (H1 & H2 & skipped & l & -> & Hs & ->).
    split; [assumption|]. split; [assumption|].
    exists (line :: skipped), l. repeat split. now constructor.
Qed.

Lemma ask_text_skips skipped line rest :
  Forall blank_line skipped -> Text.strip line <> EmptyString ->
  ask_text (skipped ++ line :: rest) = Some (Text.strip line, rest).
Proof.
  intros Hs Hl. induction Hs as [|x skipped Hx _ IH]; cbn [ask_text app].
  - apply truthy_true in Hl. now rewrite Hl.
  - unfold blank_line in Hx. rewrite Hx. exact IH.
Qed.

Lemma ask_count_accepts int answers t rest :
  ask_count int answers = Some (t, rest) ->
  (t = Unlimited \/ exists n, 1 <= n /\ t = Finite n)
  /\ exists skipped line,
       answers = (skipped ++ line :: rest)%list
       /\ Forall (count_rejected int) skipped /\ count_accepted int line t.
Proof.
  induction answers as [|line more IH]; intros H; [discriminate|].
  cbn [ask_count] in H.
  destruct (Text.truthy (Text.strip line)) eqn:E; cbn [negb] in H.
  - apply truthy_true in E.
    destruct (int (Text.strip line)) as [count|] eqn:Ei.
    + destruct (Z.ltb_spec count 1) as [Hlt | Hge].
      * destruct (IH H) as (H1 & skipped & l & -> & Hs & Hl).
        split; [assumption|]. exists (line :: skipped), l. repeat split; auto.
        constructor; [|assumption]. split; [assumption|]. now rewrite Ei.
      * injection H as <- <-. split.
        { right. exists (Z.to_nat count). split; [lia | reflexivity]. }
        exists [], line. repeat split; [constructor|].
        right. split; [assumption|]. exists count. auto.
    + destruct (IH H) as (H1 & skipped & l & -> & Hs & Hl).
      split; [assumption|]. exists (line :: skipped), l. repeat split; auto.
      constructor; [|assumption]. split; [assumption|]. now rewrite Ei.
  - apply truthy_false in E. injection H as <- <-. split; [now left|].
    exists [], line. repeat split; [constructor|]. now left.
Qed.

Lemma ask_count_skips int skipped line t rest :
  Forall (count_rejected int) skipped -> count_accepted int line t ->
  ask_count int (skipped ++ line :: rest) = Some (t, rest).
Proof.
  intros Hs Hl. induction Hs as [|x skipped [Hx Hi] _ IH]; cbn [ask_count app].
  - destruct Hl as [[E ->] | (E & count & Hi & Hge & ->)].
    + now rewrite E.
    + apply truthy_true in E. rewrite E, Hi. cbn [negb].
      destruct (Z.ltb_spec count 1); [lia | reflexivity].
  - apply truthy_true in Hx. rewrite Hx. cbn [negb].
    destruct (int (Text.strip x)) as [count|]; [|exact IH].
    destruct (Z.ltb_spec count 1); [exact IH | lia].
Qed.

(** X1. Whatever the user types and whatever [int] accepts, the
    configuration [get_user_requirements] returns has a non-empty, trimmed
    company type and location, a target that is unlimited or an integer of
    at least 1 (so an empty registry is never at the target), and the
    search query built from them; it consumes a prefix of the typed
    lines. *)
Theorem get_user_requirements_valid
    (int : string -> option Z) (answers : list string)
    (cfg : requirements) (rest : list string)
    (Hrun : get_user_requirements int answers = Some (cfg, rest)) :
  COMPANY_TYPE cfg <> EmptyString
  /\ Text.strip (COMPANY_TYPE cfg) = COMPANY_TYPE cfg
  /\ LOCATION cfg <> EmptyString
  /\ Text.strip (LOCATION cfg) = LOCATION cfg
  /\ (TARGET_COMPANIES cfg = Unlimited
      \/ exists n, 1 <= n /\ TARGET_COMPANIES cfg = Finite n)
  /\ target_reached (TARGET_COMPANIES cfg) 0 = false
  /\ SEARCH_QUERY cfg
     = (if String.eqb (Text.lower (LOCATION cfg)) "global"
        then "top " ++ COMPANY_TYPE cfg ++ " companies worldwide"
        else "major " ++ COMPANY_TYPE cfg ++ " companies in " ++ LOCATION cfg)
  /\ exists used, answers = (used ++ rest)%list /\ 3 <= List.length used.
Proof.
  unfold get_user_requirements in Hrun.
  destruct (ask_text answers) as [[company_type answers1]|] eqn:E1; [|discriminate].
  destruct (ask_text answers1) as [[location answers2]|] eqn:E2; [|discriminate].
  destruct (ask_count int answers2) as [[count rest']|] eqn:E3; [|discriminate].
  injection Hrun as <- <-. cbn [COMPANY_TYPE LOCATION TARGET_COMPANIES SEARCH_QUERY].
  destruct (ask_text_accepts _ _ _ E1) as (H1 & H2 & s1 & l1 & -> & _ & _).
  destruct (ask_text_accepts _ _ _ E2) as (H3 & H4 & s2 & l2 & -> & _ & _).
  destruct (ask_count_accepts _ _ _ _ E3) as (H5 & s3 & l3 & -> & _ & _).
  repeat (split; [assumption|]).
  split.
  { destruct H5 as [-> | (n & Hn & ->)]; [reflexivity|].
    simpl. apply Nat.leb_gt. lia. }
  split; [reflexivity|].
  exists (s1 ++ l1 :: s2 ++ l2 :: s3 ++ [l3])%list. split.
  - now repeat (rewrite <- ?app_assoc; cbn [app]; f_equal).
  - rewrite !length_app. cbn [List.length]. rewrite !length_app. cbn [List.length].
    rewrite !length_app. cbn [List.length]. lia.
Qed.

Lemma get_user_requirements_valid_witness :
  TARGET_COMPANIES
    (mkRequirements "Defense software" "India" (Finite 5)
                    "major Defense software companies in India")
  = Unlimited
  \/ exists n, 1 <= n
       /\ TARGET_COMPANIES
            (mkRequirements "Defense software" "India" (Finite 5)
                            "major Defense software companies in India")
          = Finite n.
Proof.
  apply (get_user_requirements_valid plain_int
           [""; " Defense software "; "India"; "many"; "0"; "5"; "unread"]
           (mkRequirements "Defense software" "India" (Finite 5)
                           "major Defense software companies in India")
           ["unread"]).
  reflexivity.
Defined.

(** X2. The prompts are repeated until they are satisfied, and the
    answers that were turned down leave no trace: after any run of blank
    lines the first non-blank line, trimmed, is the company type; likewise
    the location; after any run of counts that [int] rejects or that are
    below 1, an empty line sets the unlimited target and a count of at
    least 1 sets that target. *)
Theorem get_user_requirements_reprompts
    (int : string -> option Z)
    (skip1 : list string) (type_line : string)
    (skip2 : list string) (location_line : string)
    (skip3 : list string) (count_line : string) (t : target)
    (rest : list string)
    (Hskip1 : Forall blank_line skip1)
    (Htype : Text.strip type_line <> EmptyString)
    (Hskip2 : Forall blank_line skip2)
    (Hlocation : Text.strip location_line <> EmptyString)
    (Hskip3 : Forall (count_rejected int) skip3)
    (Hcount : count_accepted int count_line t) :
  get_user_requirements int
    (skip1 ++ type_line :: skip2 ++ location_line :: skip3 ++ count_line :: rest)
  = Some
      (mkRequirements (Text.strip type_line) (Text.strip location_line) t
         (if String.eqb (Text.lower (Text.strip location_line)) "global"
          then "top " ++ Text.strip type_line ++ " companies worldwide"
          else "major " ++ Text.strip type_line ++ " companies in "
               ++ Text.strip location_line),
       rest).
Proof.
  unfold get_user_requirements.
  rewrite (ask_text_skips skip1 type_line _ Hskip1 Htype).
  rewrite (ask_text_skips skip2 location_line _ Hskip2 Hlocation).
  rewrite (ask_count_skips int skip3 count_line t rest Hskip3 Hcount).
  reflexivity.
Qed.

Lemma get_user_requirements_reprompts_witness :
  get_user_requirements plain_int
    ([""; "  "] ++ " Cybersecurity firms" :: [] ++ "GLOBAL " :: ["ten"; "0"] ++ "" :: [])
  = Some (mkRequirements "Cybersecurity firms" "GLOBAL" Unlimited
            "top Cybersecurity firms companies worldwide", []).
Proof.
  apply (get_user_requirements_reprompts plain_int
           [""; "  "] " Cybersecurity firms" [] "GLOBAL " ["ten"; "0"] "" Unlimited []).
  - repeat constructor.
  - discriminate.
  - constructor.
  - discriminate.
  - repeat constructor; try discriminate; simpl; lia.
  - left. split; reflexivity.
Defined.

(** ** The registry *)

(** One call leaves the registry as it is or appends one record, built
    from the trimmed arguments. *)
Lemma add_appends_fresh t c reg :
  exists extra,
    snd (add_discovered_company t c reg) = (reg ++ extra)%list
    /\ Forall fresh_record extra /\ List.length extra <= 1.
Proof.
  unfold add_discovered_company.
  destruct (company_name c) as [given|].
  2:{ exists []. rewrite app_nil_r. simpl. auto. }
  destruct (negb (Text.truthy given) || negb (Text.truthy (Text.strip given))) eqn:Eb.
  { exists []. rewrite app_nil_r. simpl. auto. }
  destruct (target_reached t (List.length reg)).
  { exists []. rewrite app_nil_r. simpl. auto. }
  destruct (name_taken (Text.lower (Text.strip given)) reg).
  { exists []. rewrite app_nil_r. simpl. auto. }
  eexists [_]. split.
  - destruct (target_reached t _); reflexivity.
  - split; [|simpl; lia]. constructor; [|constructor].
    unfold fresh_record. cbn [name location website services email
                              contact_details detailed_report].
    rewrite !strip_idem. repeat split.
    intros E. apply name_check_blank in E. congruence.
Qed.

(** X3. The tool only ever appends: along any sequence of calls the
    records already in the registry stay in place unchanged, each call
    adds at most one record, and every record added has a non-empty
    trimmed name, trimmed fields and an empty report. *)
Theorem registry_is_append_only
    (t : target) (cs : list candidate) (reg : list company) :
  exists extra,
    add_all t cs reg = (reg ++ extra)%list
    /\ Forall fresh_record extra
    /\ List.length extra <= List.length cs.
Proof.
  revert reg. induction cs as [|c cs IH]; intros reg.
  - exists []. rewrite app_nil_r. simpl. auto.
  - cbn [add_all fold_left].
    destruct (add_appends_fresh t c reg) as (x & Hx & Fx & Lx).
    destruct (IH (snd (add_discovered_company t c reg))) as (y & Hy & Fy & Ly).
    exists (x ++ y)%list. unfold add_all in Hy. rewrite Hy, Hx, app_assoc.
    split; [reflexivity|]. split; [now apply Forall_app|].
    rewrite length_app. simpl. lia.
Qed.

(** X4. The success signal marks the insertion that fills the registry:
    when a call appends a record, it returns the success signal, with the
    new size as its count, exactly if the registry is now at the target,
    and the plain added signal exactly if it is still below; a success
    signal is never returned without an insertion. *)
Theorem success_signal_marks_target
    (t : target) (c : candidate) (reg reg' : list company) (sg : add_signal)
    (Hcall : add_discovered_company t c reg = (sg, reg')) :
  (forall k, sg = SuccessTarget k ->
     t = Finite k /\ List.length reg' = k /\ List.length reg' = S (List.length reg))
  /\ (forall given, sg = Added given ->
        company_name c = Some given
        /\ target_reached t (List.length reg') = false
        /\ List.length reg' = S (List.length reg))
  /\ (List.length reg' = S (List.length reg) ->
      (target_reached t (List.length reg') = true
         -> sg = SuccessTarget (List.length reg'))
      /\ (target_reached t (List.length reg') = false
         -> exists given, sg = Added given)).
Proof.
  unfold add_discovered_company in Hcall.
  destruct (company_name c) as [given|];
    [|injection Hcall as <- <-; repeat split; intros; try discriminate; lia].
  destruct (negb (Text.truthy given) || negb (Text.truthy (Text.strip given)));
    [injection Hcall as <- <-; repeat split; intros; try discriminate; lia|].
  destruct (target_reached t (List.length reg)) eqn:Ebefore;
    [injection Hcall as <- <-; repeat split; intros; try discriminate; lia|].
  destruct (name_taken (Text.lower (Text.strip given)) reg);
    [injection Hcall as <- <-; repeat split; intros; try discriminate; lia|].
  rewrite length_app in Hcall. cbn [List.length] in Hcall.
  rewrite Nat.add_1_r in Hcall.
  destruct (target_reached t (S (List.length reg))) eqn:Eafter;
    injection Hcall as <- <-; rewrite length_app; cbn [List.length];
    rewrite Nat.add_1_r, Eafter.
  - split; [|repeat split; intros; try discriminate; auto].
    intros k Hk. injection Hk as <-.
    destruct t as [n|]; [|discriminate]. simpl in *.
    apply Nat.leb_gt in Ebefore. apply Nat.leb_le in Eafter.
    repeat split. f_equal. lia.
  - split; [intros; discriminate|]. split.
    + intros g Hg. injection Hg as <-. repeat split.
    + intros _. split; [discriminate | eauto].
Qed.

Lemma success_signal_marks_target_witness :
  Finite 2 = Finite 2
  /\ List.length [mkCompany "Acme Corp" "" "" "" "" "" "";
                  mkCompany "Beta LLC" "Pune" "" "" "" "" ""] = 2
  /\ List.length [mkCompany "Acme Corp" "" "" "" "" "" "";
                  mkCompany "Beta LLC" "Pune" "" "" "" "" ""]
     = S (List.length [mkCompany "Acme Corp" "" "" "" "" "" ""]).
Proof.
  apply (proj1 (success_signal_marks_target (Finite 2)
                  (mkCandidate (Some " Beta LLC") "Pune " "" "" "" "")
                  [mkCompany "Acme Corp" "" "" "" "" "" ""]
                  [mkCompany "Acme Corp" "" "" "" "" "" "";
                   mkCompany "Beta LLC" "Pune" "" "" "" "" ""]
                  (SuccessTarget 2) eq_refl) 2 eq_refl).
Defined.

(** ** The rate limiter, continued *)

(** X5. After every call of the limiter the request counter lies between
    1 and [MAX_REQUESTS_PER_MINUTE], whatever it was before; it restarts
    at 1 when more than 60 have passed since the previous grant or when
    it stood at the cap, and otherwise goes up by one. *)
Theorem request_count_within_cap (d : delays) (s : limiter) :
  1 <= request_count (enhanced_rate_limit d s) <= MAX_REQUESTS_PER_MINUTE
  /\ ((60 < clock s + idle d - last_request_time s)%Q ->
      request_count (enhanced_rate_limit d s) = 1)
  /\ (MAX_REQUESTS_PER_MINUTE <= request_count s ->
      request_count (enhanced_rate_limit d s) = 1)
  /\ ((clock s + idle d - last_request_time s <= 60)%Q ->
      request_count s < MAX_REQUESTS_PER_MINUTE ->
      request_count (enhanced_rate_limit d s) = S (request_count s)).
Proof.
  unfold enhanced_rate_limit, MAX_REQUESTS_PER_MINUTE. cbn [request_count].
  destruct (Qltb 60 (clock s + idle d - last_request_time s)) eqn:Ew;
    [apply Qltb_true in Ew; change (25 <=? 0) with false; cbn iota
    | apply Qltb_false in Ew; destruct (Nat.leb_spec 25 (request_count s))];
    repeat split; intros; try lia; try reflexivity;
    exfalso; eapply Qlt_not_le; eassumption.
Qed.

Lemma request_count_within_cap_witness :
  request_count (enhanced_rate_limit (mkDelays 1 0) (mkLimiter 1000 40 1000)) = 1.
Proof.
  apply (proj1 (proj2 (proj2
           (request_count_within_cap (mkDelays 1 0) (mkLimiter 1000 40 1000))))).
  unfold MAX_REQUESTS_PER_MINUTE. simpl. lia.
Defined.

(** X6. The limiter never sleeps longer than 63 in one call and does not
    sleep at all when it need not: with a clock that has not run backwards
    since the previous grant, the grant comes between the time of entry
    and 63 later (plus what the environment adds), and exactly at the time
    of entry when the previous grant is at least [MIN_REQUEST_INTERVAL]
    old and the counter, after its reset, is below the cap. *)
Theorem limiter_sleep_is_bounded (d : delays) (s : limiter)
    (Hclock : (last_request_time s <= clock s)%Q)
    (Hd : delays_ok d) :
  (clock s + idle d + lag d <= last_request_time (enhanced_rate_limit d s))%Q
  /\ (last_request_time (enhanced_rate_limit d s)
      <= clock s + idle d + 63 + lag d)%Q
  /\ ((MIN_REQUEST_INTERVAL <= clock s + idle d - last_request_time s)%Q ->
      ((60 < clock s + idle d - last_request_time s)%Q
       \/ request_count s < MAX_REQUESTS_PER_MINUTE) ->
      (last_request_time (enhanced_rate_limit d s) == clock s + idle d + lag d)%Q)
  /\ (clock (enhanced_rate_limit d s)
      == last_request_time (enhanced_rate_limit d s))%Q.
Proof.
  destruct Hd as [Hidle Hlag].
  unfold enhanced_rate_limit, MIN_REQUEST_INTERVAL, MAX_REQUESTS_PER_MINUTE.
  cbn [last_request_time clock].
  set (ct := (clock s + idle d)%Q).
  assert (Hct : (last_request_time s <= ct)%Q) by (unfold ct; lra).
  destruct (Qltb 60 (ct - last_request_time s)) eqn:Ew;
    [apply Qltb_true in Ew; change (25 <=? 0) with false; cbn iota
    | apply Qltb_false in Ew; destruct (Nat.leb_spec 25 (request_count s))];
    (destruct (Qltb (ct - last_request_time s) 3) eqn:Eg;
     [apply Qltb_true in Eg | apply Qltb_false in Eg]);
    repeat split; try lra; try reflexivity;
    try (intros H3 [H60 | Hfree]; solve [lra | lia]).
Qed.

Lemma limiter_sleep_is_bounded_witness :
  (last_request_time (enhanced_rate_limit (mkDelays 2 0) (mkLimiter 1000 4 1002))
   == 1002 + 2 + 0)%Q.
Proof.
  apply (proj1 (proj2 (proj2
           (limiter_sleep_is_bounded (mkDelays 2 0) (mkLimiter 1000 4 1002)
              ltac:(unfold Qle; simpl; lia)
              ltac:(split; unfold Qle; simpl; lia))))).
  - unfold MIN_REQUEST_INTERVAL, Qle. simpl. lia.
  - right. unfold MAX_REQUESTS_PER_MINUTE. simpl. lia.
Defined.

Lemma last_cons_default {A} (l : list A) : forall x d,
  last (x :: l) d = last l x.
Proof.
  induction l as [|y l IH]; intros x d; [reflexivity|].
  change (last (x :: y :: l) d) with (last (y :: l) d).
  now rewrite !IH.
Qed.

Lemma spaced_span gap ts : forall t0,
  spaced gap (t0 :: ts) ->
  (t0 + gap * Qnat (List.length ts) <= last ts t0)%Q.
Proof.
  induction ts as [|t1 ts IH]; intros t0 H.
  - cbn [List.length last]. change (Qnat 0) with 0%Q. lra.
  - destruct H as [H01 Hrest]. specialize (IH t1 Hrest).
    cbn [List.length]. rewrite Qnat_S.
    rewrite last_cons_default. lra.
Qed.

(** X7. A burst of N calls takes at least (N-1) times
    [MIN_REQUEST_INTERVAL] of the caller's time: the last call returns at
    least that much after the first one returned. The instants of return
    are the grants the calls stamp, so the same holds of the stamps. *)
Theorem burst_takes_at_least (ds : list delays) (s : limiter)
    (first : Q) (others : list Q)
    (Hds : Forall delays_ok ds)
    (Hburst : return_times ds s = first :: others) :
  (first + MIN_REQUEST_INTERVAL * Qnat (List.length others)
   <= last others first)%Q
  /\ List.length ds = S (List.length others)
  /\ grant_times ds s = first :: others
  /\ (last_request_time s + MIN_REQUEST_INTERVAL <= first)%Q.
Proof.
  pose proof (grants_spaced ds s Hds) as Hsp.
  rewrite return_times_grants in Hburst.
  rewrite Hburst in Hsp. destruct Hsp as [Hfirst Hsp].
  split; [now apply spaced_span|].
  split; [|split; [exact Hburst | exact Hfirst]].
  apply (f_equal (@List.length Q)) in Hburst.
  unfold grant_times in Hburst. rewrite length_map in Hburst.
  assert (Hlen : forall ds s, List.length (grants ds s) = List.length ds).
  { clear. induction ds as [|d ds IH]; intros s; simpl; [reflexivity|]. now rewrite IH. }
  rewrite Hlen in Hburst. exact Hburst.
Qed.

Lemma burst_takes_at_least_witness :
  (1000 + MIN_REQUEST_INTERVAL * Qnat (List.length [1003%Q; 1006%Q])
   <= last [1003%Q; 1006%Q] 1000)%Q.
Proof.
  apply (burst_takes_at_least [mkDelays 0 0; mkDelays 0 0; mkDelays 0 0]
           (mkLimiter 0 0 1000) 1000 [1003%Q; 1006%Q]).
  - repeat constructor; unfold Qle; simpl; lia.
  - reflexivity.
Defined.

(** ** What agents can do to the registry *)

Lemma grown_from_refl reg : grown_from reg reg.
Proof. exists []. rewrite app_nil_r. auto. Qed.

Lemma grown_from_trans reg1 reg2 reg3 :
  grown_from reg1 reg2 -> grown_from reg2 reg3 -> grown_from reg1 reg3.
Proof.
  intros (x & -> & Hx) (y & -> & Hy). exists (x ++ y)%list.
  rewrite app_assoc. split; [reflexivity | now apply Forall_app].
Qed.

Lemma fresh_is_kept rec : fresh_record rec -> kept_record rec.
Proof. intros (H1 & H2 & _). now split. Qed.

Lemma add_registry_ok t c reg :
  registry_ok t reg -> registry_ok t (snd (add_discovered_company t c reg)).
Proof.
  intros (Hu & Hk & Hn). split; [now apply add_unique|]. split.
  - destruct (add_appends_fresh t c reg) as (x & -> & Fx & _).
    apply Forall_app. split; [assumption|].
    eapply Forall_impl; [|exact Fx]. apply fresh_is_kept.
  - destruct t as [n|]; [|exact I]. now apply (add_length (Finite n)).
Qed.

(** Anything [add_discovered_company] preserves, an invocation preserves. *)
Lemma run_agent_preserves (P : list company -> Prop) t :
  (forall c reg, P reg -> P (snd (add_discovered_company t c reg))) ->
  forall r reg, P reg -> P (snd (run_agent t r reg)).
Proof.
  intros Hadd. induction r as [content | err | args k IH]; intros reg H; simpl; auto.
  specialize (Hadd args reg H).
  destruct (add_discovered_company t args reg) as [sg reg1]. now apply IH.
Qed.

Lemma run_agent_registry_ok t r reg :
  registry_ok t reg -> registry_ok t (snd (run_agent t r reg)).
Proof. apply run_agent_preserves. intros c reg0. apply add_registry_ok. Qed.

Lemma run_agent_grows t r reg : grown_from reg (snd (run_agent t r reg)).
Proof.
  apply (run_agent_preserves (grown_from reg)); [|apply grown_from_refl].
  intros c reg0 H. eapply grown_from_trans; [exact H|].
  destruct (add_appends_fresh t c reg0) as (x & Hx & Fx & _). now exists x.
Qed.

(** Anything an invocation preserves, the discovery loop preserves. *)
Lemma discovery_loop_preserves (P : list company -> Prop) t agent :
  (forall r reg, P reg -> P (snd (run_agent t r reg))) ->
  forall fuel a w ex,
    discovery_loop fuel t agent a w = Some ex ->
    P (discovered_companies w) -> P (discovered_companies (exit_world ex)).
Proof.
  intros Hrun. induction fuel as [|fuel IH]; intros a w ex H HP.
  - cbn [discovery_loop] in H. destruct (negb _ && _); [discriminate|].
    now injection H as <-.
  - revert H. loop_round t agent a w; intros H;
      pose proof (Hrun (agent (a + 1)) _ HP) as HP';
      try rewrite Erun in HP'; cbn [snd] in HP';
      try (injection H as <-; cbn [exit_world]; assumption);
      try (apply IH in H; [exact H | exact HP']).
Qed.

Lemma discovery_node_preserves (P : list company -> Prop) t d agent w w' m :
  (forall r reg, P reg -> P (snd (run_agent t r reg))) ->
  discovery_node t d agent w = Some (w', m) ->
  P (discovered_companies w) -> P (discovered_companies w').
Proof.
  intros Hrun. unfold discovery_node.
  destruct (target_reached t (List.length (discovered_companies w))).
  - intros H HP. now injection H as <- <-.
  - destruct (discovery_loop max_attempts t agent 0 (rate_limited d w))
      as [ex|] eqn:Hex; [|discriminate].
    intros H HP.
    pose proof (discovery_loop_preserves P t agent Hrun _ _ _ _ Hex HP) as HP'.
    destruct ex; injection H as <- <-; exact HP'.
Qed.

(** ** What a research step does to the registry *)

Lemma keys_update_report i report reg :
  keys (update_at i (set_report report) reg) = keys reg.
Proof.
  revert i. induction reg as [|c reg IH]; intros [|i]; simpl; auto.
  now rewrite IH.
Qed.

Lemma kept_update_report i report reg :
  Forall kept_record reg -> Forall kept_record (update_at i (set_report report) reg).
Proof.
  revert i. induction reg as [|c reg IH]; intros [|i] H; simpl; auto;
    inversion H; subst; constructor; auto.
Qed.

Lemma registry_ok_update_report t i report reg :
  registry_ok t reg -> registry_ok t (update_at i (set_report report) reg).
Proof.
  intros (Hu & Hk & Hn). unfold registry_ok, names_unique.
  rewrite keys_update_report, update_at_length.
  split; [assumption|]. split; [now apply kept_update_report | assumption].
Qed.

Lemma firstn_update_at {A} (f : A -> A) l : forall i x,
  nth_error l i = Some x ->
  firstn (S i) (update_at i f l) = (firstn i l ++ [f x])%list.
Proof.
  induction l as [|y l IH]; intros [|i] x H; simpl in *; try discriminate.
  - injection H as ->. now destruct l.
  - f_equal. now apply IH.
Qed.

Lemma firstn_grown {A} (l x : list A) i :
  i <= List.length l -> firstn i (l ++ x) = firstn i l.
Proof.
  intros H. rewrite firstn_app.
  replace (i - List.length l) with 0 by lia. now rewrite firstn_O, app_nil_r.
Qed.

Lemma pending_grown cur reg reg' :
  cur <= List.length reg ->
  (forall i c, cur <= i -> nth_error reg i = Some c -> detailed_report c = EmptyString) ->
  grown_from reg reg' ->
  forall i c, cur <= i -> nth_error reg' i = Some c -> detailed_report c = EmptyString.
Proof.
  intros Hcur Hp (x & -> & Fx) i c Hi Hnth.
  destruct (Nat.lt_ge_cases i (List.length reg)) as [Hlt | Hge].
  - rewrite nth_error_app1 in Hnth by assumption. eauto.
  - rewrite nth_error_app2 in Hnth by assumption.
    apply nth_error_In in Hnth. rewrite Forall_forall in Fx.
    apply Fx in Hnth. apply Hnth.
Qed.

(** ** Invariants of a run *)

Lemma grown_length reg reg' :
  grown_from reg reg' -> List.length reg <= List.length reg'.
Proof. intros (x & -> & _). rewrite length_app. lia. Qed.

Lemma discovery_node_run_inv t d agent w w' m :
  discovery_node t d agent w = Some (w', m) ->
  run_inv t w -> run_inv t w'.
Proof.
  intros Hrun (Hok & Hcur & Hpend).
  destruct (discovery_node_frame t d agent w w' m Hrun) as (_ & Hi & _).
  pose proof (discovery_node_preserves (registry_ok t) t d agent w w' m
                (run_agent_registry_ok t) Hrun Hok) as Hok'.
  pose proof (discovery_node_preserves (grown_from (discovered_companies w))
                t d agent w w' m
                (fun r reg H => grown_from_trans _ _ _ H (run_agent_grows t r reg))
                Hrun (grown_from_refl _)) as Hg.
  split; [exact Hok'|]. split.
  - rewrite Hi. apply grown_length in Hg. lia.
  - unfold pending_unreported. rewrite Hi.
    apply (pending_grown _ (discovered_companies w)); assumption.
Qed.

Lemma discovery_node_rows t d agent w w' m :
  discovery_node t d agent w = Some (w', m) ->
  current_research_index w <= List.length (discovered_companies w) ->
  rows_follow_registry w -> rows_follow_registry w'.
Proof.
  intros Hrun Hcur Hrows.
  destruct (discovery_node_frame t d agent w w' m Hrun) as (_ & Hi & Hc).
  destruct (discovery_node_preserves (grown_from (discovered_companies w))
              t d agent w w' m
              (fun r reg H => grown_from_trans _ _ _ H (run_agent_grows t r reg))
              Hrun (grown_from_refl _)) as (x & Hx & _).
  unfold rows_follow_registry. rewrite Hc, Hi, Hx, firstn_grown by assumption.
  exact Hrows.
Qed.

Lemma research_node_run_inv t e w :
  run_inv t w -> run_inv t (fst (research_node t e w)).
Proof.
  intros (Hok & Hcur & Hpend).
  destruct (research_node_cases t e w)
    as [[Hle E] | (c & out & reg' & Hlt & Hnth & Hrun & E)]; rewrite E.
  - cbn [fst]. split; [exact Hok|]. split; [exact Hcur | exact Hpend].
  - pose proof (run_agent_registry_ok t (r_agent e) _ Hok) as Hok'.
    pose proof (run_agent_grows t (r_agent e) (discovered_companies w)) as Hg.
    rewrite Hrun in Hok', Hg. cbn [snd] in Hok', Hg.
    pose proof (grown_length _ _ Hg) as Hlen.
    pose proof (pending_grown _ _ _ Hcur Hpend Hg) as Hpend'.
    destruct out as [[report|]|err]; cbn [fst];
      try (split; [exact Hok'|]; split; [simpl; lia | exact Hpend']).
    unfold run_inv, pending_unreported, after_report, after_agent.
    cbn [set_index set_csv set_companies log_call rate_limited
         discovered_companies current_research_index].
    split; [now apply registry_ok_update_report|]. split.
    + rewrite update_at_length. lia.
    + intros i c0 Hi Hn. rewrite update_at_other in Hn by lia.
      apply (Hpend' i c0); [lia | exact Hn].
Qed.

Lemma research_node_rows t e w :
  r_io_ok e = true ->
  current_research_index w <= List.length (discovered_companies w) ->
  rows_follow_registry w -> rows_follow_registry (fst (research_node t e w)).
Proof.
  intros Hio Hcur Hrows.
  destruct (research_node_cases t e w)
    as [[Hle E] | (c & out & reg' & Hlt & Hnth & Hrun & E)]; rewrite E.
  - exact Hrows.
  - destruct (run_agent_grows t (r_agent e) (discovered_companies w)) as (x & Hx & _).
    rewrite Hrun in Hx. cbn [snd] in Hx. subst reg'.
    unfold rows_follow_registry in *.
    destruct out as [[report|]|err]; cbn [fst];
      unfold after_report, after_agent;
      cbn [set_index set_csv set_companies log_call rate_limited
           discovered_companies current_research_index csv_file];
      try (rewrite firstn_grown by assumption; exact Hrows).
    rewrite Hio. cbn [add_company_to_csv fst].
    rewrite Nat.add_1_r.
    rewrite (firstn_update_at _ _ _ c).
    + rewrite firstn_grown by assumption.
      rewrite Hrows, map_app. reflexivity.
    + rewrite nth_error_app1 by assumption. exact Hnth.
Qed.

(** Anything a research step preserves, the research phase preserves. *)
Lemma research_phase_preserves (Q : world -> Prop) t envs :
  (forall k w, Q w -> Q (fst (research_node t (envs k) w))) ->
  forall steps k w wf mf,
    research_phase steps t envs k w = Some (wf, mf) -> Q w -> Q wf.
Proof.
  intros Hstep. induction steps as [|steps IH]; intros k w wf mf H HQ; [discriminate|].
  cbn [research_phase] in H.
  specialize (Hstep k w HQ).
  destruct (research_node t (envs k) w) as [w' m]. cbn [fst] in Hstep.
  destruct (should_continue m w').
  - apply (IH _ _ _ _ H Hstep).
  - now injection H as <- <-.
Qed.

Lemma fresh_world_run_inv t r : run_inv t (fresh_world r).
Proof.
  repeat split; simpl; try constructor.
  - destruct t; [apply Nat.le_0_l | exact I].
  - intros i c _ H. destruct i; discriminate.
Qed.

(** Anything that holds of the fresh world and that both nodes preserve
    holds at the end of a run of the graph. *)
Lemma run_graph_preserves (Q : world -> Prop) t d agent envs r w m :
  Q (fresh_world r) ->
  (forall w0 w1 m1, discovery_node t d agent w0 = Some (w1, m1) -> Q w0 -> Q w1) ->
  (forall k w0, Q w0 -> Q (fst (research_node t (envs k) w0))) ->
  run_graph t d agent envs r = Some (w, m) -> Q w.
Proof.
  intros H0 Hd Hr. unfold run_graph.
  destruct (discovery_node t d agent (fresh_world r)) as [[w1 m1]|] eqn:E; [|discriminate].
  pose proof (Hd _ _ _ E H0) as H1.
  destruct (should_continue m1 w1).
  - intros H. apply (research_phase_preserves Q t envs Hr _ _ _ _ _ H H1).
  - intros H. now injection H as <- <-.
Qed.

(** X8. At the end of every run of the graph, whatever the two agents
    did, the registry holds no two records with the same trimmed,
    lowercased name, every record has a non-empty trimmed name, a finite
    target is not exceeded, and the cursor is within the registry. *)
Theorem run_keeps_registry_sound
    (t : target) (d : delays) (agent : nat -> agent_run)
    (envs : nat -> research_env) (r : limiter) (w : world) (m : string)
    (Hrun : run_graph t d agent envs r = Some (w, m)) :
  names_unique (discovered_companies w)
  /\ Forall kept_record (discovered_companies w)
  /\ (forall n, t = Finite n -> List.length (discovered_companies w) <= n)
  /\ current_research_index w <= List.length (discovered_companies w).
Proof.
  assert (H : run_inv t w).
  { apply (run_graph_preserves (run_inv t) t d agent envs r w m);
      [apply fresh_world_run_inv | | | exact Hrun].
    - intros w0 w1 m1. apply discovery_node_run_inv.
    - intros k w0. apply research_node_run_inv. }
  destruct H as ((Hu & Hk & Hn) & Hcur & _).
  repeat split; try assumption.
  intros n ->. exact Hn.
Qed.

Lemma run_keeps_registry_sound_witness :
  names_unique (discovered_companies scripted_end)
  /\ Forall kept_record (discovered_companies scripted_end)
  /\ (forall n, Finite 3 = Finite n ->
        List.length (discovered_companies scripted_end) <= n)
  /\ current_research_index scripted_end
     <= List.length (discovered_companies scripted_end).
Proof.
  apply (run_keeps_registry_sound (Finite 3) (mkDelays 0 0) three_companies_agent
           raise_on_second (mkLimiter 0 0 1000) scripted_end
           (RESEARCH_ERROR "search quota exceeded")).
  vm_compute. reflexivity.
Defined.

(** X9. A report is attached only by the research step that processes
    the record: at the end of every run of the graph each record at or
    past the cursor still has an empty [detailed_report]. *)
Theorem run_reports_only_researched
    (t : target) (d : delays) (agent : nat -> agent_run)
    (envs : nat -> research_env) (r : limiter) (w : world) (m : string)
    (Hrun : run_graph t d agent envs r = Some (w, m)) :
  forall i c,
    current_research_index w <= i ->
    nth_error (discovered_companies w) i = Some c ->
    detailed_report c = EmptyString.
Proof.
  assert (H : run_inv t w).
  { apply (run_graph_preserves (run_inv t) t d agent envs r w m);
      [apply fresh_world_run_inv | | | exact Hrun].
    - intros w0 w1 m1. apply discovery_node_run_inv.
    - intros k w0. apply research_node_run_inv. }
  destruct H as (_ & _ & Hpend). exact Hpend.
Qed.

Lemma run_reports_only_researched_witness :
  detailed_report (mkCompany "Gamma Inc" "" "" "" "" "" "") = EmptyString.
Proof.
  apply (run_reports_only_researched (Finite 3) (mkDelays 0 0)
           three_companies_agent raise_on_second (mkLimiter 0 0 1000)
           scripted_end (RESEARCH_ERROR "search quota exceeded")
           ltac:(vm_compute; reflexivity)
           2 (mkCompany "Gamma Inc" "" "" "" "" "" "")).
  - vm_compute. lia.
  - vm_compute. reflexivity.
Defined.

(** X10. With the CSV writes succeeding, the file mirrors the research
    done so far at the end of every run of the graph: below the header
    the N-th row is the row of the N-th record of the registry, report
    included, for exactly the records before the cursor. *)
Theorem run_rows_follow_registry
    (t : target) (d : delays) (agent : nat -> agent_run)
    (envs : nat -> research_env) (r : limiter) (w : world) (m : string)
    (Hio : forall k, r_io_ok (envs k) = true)
    (Hrun : run_graph t d agent envs r = Some (w, m)) :
  csv_file w
  = csv_header
    :: map csv_row (firstn (current_research_index w) (discovered_companies w))
  /\ List.length (csv_file w) = S (current_research_index w).
Proof.
  assert (H : run_inv t w /\ rows_follow_registry w).
  { apply (run_graph_preserves (fun w => run_inv t w /\ rows_follow_registry w)
             t d agent envs r w m); [| | | exact Hrun].
    - split; [apply fresh_world_run_inv | reflexivity].
    - intros w0 w1 m1 H1 [Hinv Hrows]. split.
      + now apply (discovery_node_run_inv t d agent w0 w1 m1).
      + apply (discovery_node_rows t d agent w0 w1 m1 H1); [apply Hinv | exact Hrows].
    - intros k w0 [Hinv Hrows]. split.
      + now apply research_node_run_inv.
      + apply research_node_rows; [apply Hio | apply Hinv | exact Hrows]. }
  destruct H as [(_ & Hcur & _) Hrows]. split; [exact Hrows|].
  rewrite Hrows. cbn [List.length]. rewrite length_map, length_firstn. lia.
Qed.

Lemma run_rows_follow_registry_witness :
  List.length (csv_file scripted_end) = S (current_research_index scripted_end).
Proof.
  apply (run_rows_follow_registry (Finite 3) (mkDelays 0 0) three_companies_agent
           raise_on_second (mkLimiter 0 0 1000) scripted_end
           (RESEARCH_ERROR "search quota exceeded")).
  - intros [|[|k]]; reflexivity.
  - vm_compute. reflexivity.
Defined.

(** ** How a run ends *)

Lemma should_continue_progress w :
  should_continue RESEARCH_PROGRESS w = ToResearch
  <-> current_research_index w < List.length (discovered_companies w).
Proof.
  rewrite should_continue_research_iff. unfold RESEARCH_PROGRESS.
  change (Text.contains "ALL_RESEARCH_COMPLETE" "RESEARCH_PROGRESS") with false.
  change (Text.contains "ERROR" "RESEARCH_PROGRESS") with false.
  change (Text.contains "DISCOVERY_COMPLETE" "RESEARCH_PROGRESS") with false.
  change (Text.contains "RESEARCH_PROGRESS" "RESEARCH_PROGRESS") with true.
  intuition discriminate.
Qed.

Lemma should_continue_discovered w :
  should_continue DISCOVERY_COMPLETE w = ToResearch
  <-> 0 < List.length (discovered_companies w).
Proof.
  rewrite should_continue_research_iff. unfold DISCOVERY_COMPLETE.
  change (Text.contains "ALL_RESEARCH_COMPLETE" "DISCOVERY_COMPLETE") with false.
  change (Text.contains "ERROR" "DISCOVERY_COMPLETE") with false.
  change (Text.contains "DISCOVERY_COMPLETE" "DISCOVERY_COMPLETE") with true.
  change (Text.contains "RESEARCH_PROGRESS" "DISCOVERY_COMPLETE") with false.
  intuition discriminate.
Qed.

(** One research step with a record pending, and where the graph goes
    from there. *)
Lemma research_step_pending t e w :
  current_research_index w < List.length (discovered_companies w) ->
  (snd (research_node t e w) = RESEARCH_PROGRESS
   /\ current_research_index (fst (research_node t e w))
      = current_research_index w + 1
   /\ current_research_index (fst (research_node t e w))
      <= List.length (discovered_companies (fst (research_node t e w))))
  \/ (exists err,
        snd (research_node t e w) = RESEARCH_ERROR err
        /\ current_research_index (fst (research_node t e w))
           < List.length (discovered_companies (fst (research_node t e w)))).
Proof.
  intros Hlt.
  destruct (research_node_cases t e w)
    as [[Hle _] | (c & out & reg' & _ & Hnth & Hrun & E)]; [lia|].
  rewrite E.
  pose proof (grown_length _ _ (run_agent_grows t (r_agent e) (discovered_companies w)))
    as Hlen.
  rewrite Hrun in Hlen. cbn [snd] in Hlen.
  destruct out as [[report|]|err]; cbn [fst snd].
  - left. split; [reflexivity|]. split; [reflexivity|].
    unfold after_report. cbn [set_index set_csv set_companies
                              discovered_companies current_research_index].
    rewrite update_at_length. lia.
  - right. eexists. split; [reflexivity|]. simpl. lia.
  - right. eexists. split; [reflexivity|]. simpl. lia.
Qed.

Lemma research_phase_outcome t envs : forall steps k w wf mf,
  current_research_index w < List.length (discovered_companies w) ->
  research_phase steps t envs k w = Some (wf, mf) ->
  (mf = RESEARCH_PROGRESS
   /\ current_research_index wf = List.length (discovered_companies wf)
   /\ 0 < List.length (discovered_companies wf))
  \/ (exists err,
        mf = RESEARCH_ERROR err
        /\ current_research_index wf < List.length (discovered_companies wf)).
Proof.
  induction steps as [|steps IH]; intros k w wf mf Hlt H; [discriminate|].
  cbn [research_phase] in H.
  pose proof (research_step_pending t (envs k) w Hlt) as Hstep.
  destruct (research_node t (envs k) w) as [w' m]. cbn [fst snd] in Hstep.
  destruct Hstep as [(-> & Hcur & Hin) | (err & -> & Hpend)].
  - destruct (should_continue RESEARCH_PROGRESS w') eqn:Esc.
    + apply should_continue_progress in Esc. apply (IH _ _ _ _ Esc H).
    + injection H as <- <-. left. split; [reflexivity|].
      assert (Hnot : ~ current_research_index w' < List.length (discovered_companies w')).
      { intros Hc. apply should_continue_progress in Hc. congruence. }
      lia.
  - rewrite (should_continue_error _ w' (research_error_has_error err)) in H.
    injection H as <- <-. right. eauto.
Qed.

(** X11. A run of the graph that ends, ends in one of four ways:
    discovery found nothing (discovery-complete marker, empty registry,
    CSV file with its header only); discovery raised; every record was
    researched (research-progress marker with the cursor at the registry
    size); or research raised with a record still pending. The
    all-research-complete marker is never the last message: inside the
    graph [research_node] is only entered with a record pending. *)
Theorem run_outcomes
    (t : target) (d : delays) (agent : nat -> agent_run)
    (envs : nat -> research_env) (r : limiter) (w : world) (m : string)
    (Hrun : run_graph t d agent envs r = Some (w, m)) :
  ((m = DISCOVERY_COMPLETE /\ discovered_companies w = []
    /\ csv_file w = initialize_csv)
   \/ (exists err, m = DISCOVERY_ERROR err /\ csv_file w = initialize_csv
                   /\ current_research_index w = 0)
   \/ (m = RESEARCH_PROGRESS
       /\ current_research_index w = List.length (discovered_companies w)
       /\ 0 < List.length (discovered_companies w))
   \/ (exists err, m = RESEARCH_ERROR err
                   /\ current_research_index w
                      < List.length (discovered_companies w)))
  /\ m <> ALL_RESEARCH_COMPLETE.
Proof.
  assert (Hcases :
    (m = DISCOVERY_COMPLETE /\ discovered_companies w = []
     /\ csv_file w = initialize_csv)
    \/ (exists err, m = DISCOVERY_ERROR err /\ csv_file w = initialize_csv
                    /\ current_research_index w = 0)
    \/ (m = RESEARCH_PROGRESS
        /\ current_research_index w = List.length (discovered_companies w)
        /\ 0 < List.length (discovered_companies w))
    \/ (exists err, m = RESEARCH_ERROR err
                    /\ current_research_index w
                       < List.length (discovered_companies w))).
  { unfold run_graph in Hrun.
    destruct (discovery_node t d agent (fresh_world r)) as [[w1 m1]|] eqn:E;
      [|discriminate].
    destruct (discovery_node_frame _ _ _ _ _ _ E) as ((mk & Hmk & ->) & Hi & Hc).
    destruct mk as [ | err | | | ]; try contradiction; cbn [marker_text] in Hrun.
    - destruct (should_continue DISCOVERY_COMPLETE w1) eqn:Esc.
      + apply should_continue_discovered in Esc.
        right. right.
        apply (research_phase_outcome t envs (recursion_limit - 1) 0 w1 w m);
          [|exact Hrun].
        rewrite Hi. exact Esc.
      + injection Hrun as <- <-. left. split; [reflexivity|]. split; [|exact Hc].
        destruct (discovered_companies w1) eqn:Ereg; [reflexivity|].
        assert (should_continue DISCOVERY_COMPLETE w1 = ToResearch).
        { apply should_continue_discovered. rewrite Ereg. simpl. lia. }
        congruence.
    - assert (He : Text.contains "ERROR" (DISCOVERY_ERROR err) = true)
        by exact (error_marker_has_error (MDiscoveryError err) I).
      rewrite (should_continue_error _ w1 He) in Hrun.
      injection Hrun as <- <-. right. left. exists err. auto. }
  split; [exact Hcases|].
  destruct Hcases as [(-> & _) | [(err & -> & _) | [(-> & _) | (err & -> & _)]]];
    discriminate.
Qed.

Lemma run_outcomes_witness :
  RESEARCH_ERROR "search quota exceeded" <> ALL_RESEARCH_COMPLETE.
Proof.
  apply (run_outcomes (Finite 3) (mkDelays 0 0) three_companies_agent
           raise_on_second (mkLimiter 0 0 1000) scripted_end
           (RESEARCH_ERROR "search quota exceeded")).
  vm_compute. reflexivity.
Defined.

(** X12. With a finite target the research phase ends by itself, whatever
    the research agent does: from a world of a run with a record pending,
    as many node executions as the target exceeds the cursor are
    enough. *)
Theorem research_phase_ends_for_finite_target
    (n steps : nat) (envs : nat -> research_env) (k : nat) (w : world)
    (Hinv : run_inv (Finite n) w)
    (Hpending : current_research_index w < List.length (discovered_companies w))
    (Hsteps : n - current_research_index w <= steps) :
  exists wf mf, research_phase steps (Finite n) envs k w = Some (wf, mf).
Proof.
  revert k w Hinv Hpending Hsteps.
  induction steps as [|steps IH]; intros k w Hinv Hpending Hsteps.
  - destruct Hinv as ((_ & _ & Hn) & _). lia.
  - cbn [research_phase].
    pose proof (research_node_run_inv (Finite n) (envs k) w Hinv) as Hinv'.
    pose proof (research_step_pending (Finite n) (envs k) w Hpending) as Hstep.
    destruct (research_node (Finite n) (envs k) w) as [w' m].
    cbn [fst snd] in Hinv', Hstep.
    destruct (should_continue m w') eqn:Esc; [|eauto].
    destruct Hstep as [(-> & Hcur & _) | (err & -> & _)].
    + apply should_continue_progress in Esc.
      apply IH; [exact Hinv' | exact Esc | lia].
    + rewrite (should_continue_error _ w' (research_error_has_error err)) in Esc.
      discriminate.
Qed.

Lemma research_phase_ends_for_finite_target_witness :
  exists wf mf,
    research_phase 2 (Finite 2) raise_on_second 0
      (mkWorld [mkCompany "Acme Corp" "" "" "" "" "" "";
                mkCompany "Beta LLC" "" "" "" "" "" ""] 0 true
               (mkLimiter 0 0 1000) initialize_csv [])
    = Some (wf, mf).
Proof.
  apply (research_phase_ends_for_finite_target 2 2 raise_on_second 0
           (mkWorld [mkCompany "Acme Corp" "" "" "" "" "" "";
                     mkCompany "Beta LLC" "" "" "" "" "" ""] 0 true
                    (mkLimiter 0 0 1000) initialize_csv [])).
  - split; [|split].
    + split; [|split].
      * repeat constructor; simpl; intuition discriminate.
      * repeat constructor; discriminate.
      * simpl. lia.
    + simpl. lia.
    + intros [|[|[|i]]] c _ H; simpl in H; try discriminate;
        injection H as <-; reflexivity.
  - simpl. lia.
  - simpl. lia.
Defined.

(** ** The discovery loop, continued *)

Lemma rate_limit_calls_log cs c :
  rate_limit_calls (cs ++ [c])
  = rate_limit_calls cs + (if is_rate_limit_call c then 1 else 0).
Proof.
  unfold rate_limit_calls. rewrite filter_app, length_app. simpl.
  now destruct (is_rate_limit_call c).
Qed.

(** The loop itself never calls the rate limiter, and it makes at least
    one attempt when it is entered below the target. *)
Lemma discovery_loop_calls t agent : forall fuel a w ex,
  discovery_loop fuel t agent a w = Some ex ->
  a <= max_attempts ->
  rate_limit_calls (calls (exit_world ex)) = rate_limit_calls (calls w)
  /\ (target_reached t (List.length (discovered_companies w)) = false ->
      a < max_attempts -> a + 1 <= exit_attempts ex).
Proof.
  induction fuel as [|fuel IH]; intros a w ex H Ha.
  - cbn [discovery_loop] in H.
    destruct (negb _ && (a <? max_attempts)) eqn:Econd; [discriminate|].
    injection H as <-. split; [reflexivity|].
    intros Ht Hlt. rewrite Ht in Econd. apply Nat.ltb_lt in Hlt.
    rewrite Hlt in Econd. discriminate.
  - revert H. loop_round t agent a w; intros H;
      try (injection H as <-; cbn [exit_world exit_attempts log_call calls];
           rewrite ?rate_limit_calls_log; cbn [is_rate_limit_call];
           split; [cbn [set_companies calls]; lia | intros; lia]);
      try (apply andb_true_iff in Econd; destruct Econd as [_ Hlt];
           apply Nat.ltb_lt in Hlt;
           pose proof (discovery_loop_effect t agent _ _ _ _ H ltac:(lia)) as (Hat & _);
           apply IH in H; [|lia]; destruct H as [H _];
           cbn [log_call calls set_companies] in H;
           rewrite rate_limit_calls_log in H; cbn [is_rate_limit_call] in H;
           split; [lia | intros; lia]).
    injection H as <-. cbn [exit_world exit_attempts]. split; [reflexivity|].
    intros Ht Hlt. rewrite Ht in Econd. apply Nat.ltb_lt in Hlt.
    rewrite Hlt in Econd. discriminate.
Qed.

(** X13. [discovery_node] calls the rate limiter once per run of the
    node, not once per attempt: entered below the target it applies
    [enhanced_rate_limit] exactly once, before the loop, and then invokes
    the agent between one and [max_attempts] times. The calls the node
    makes are, in this order, the one call of the limiter and then the
    invocations of the agent. *)
Theorem discovery_applies_limiter_once
    (t : target) (d : delays) (agent : nat -> agent_run)
    (w w' : world) (m : string)
    (Hbelow : target_reached t (List.length (discovered_companies w)) = false)
    (Hrun : discovery_node t d agent w = Some (w', m)) :
  rate w' = enhanced_rate_limit d (rate w)
  /\ rate_limit_calls (calls w') = S (rate_limit_calls (calls w))
  /\ discovery_invokes (calls w) + 1 <= discovery_invokes (calls w')
  /\ discovery_invokes (calls w') <= discovery_invokes (calls w) + max_attempts
  /\ exists k,
       1 <= k <= max_attempts
       /\ calls w'
          = (calls w ++ RateLimitCall :: repeat DiscoveryInvoke k)%list.
Proof.
  unfold discovery_node in Hrun. rewrite Hbelow in Hrun.
  destruct (discovery_loop max_attempts t agent 0 (rate_limited d w))
    as [ex|] eqn:Hex; [|discriminate].
  destruct (discovery_loop_effect t agent _ _ _ _ Hex ltac:(unfold max_attempts; lia))
    as (Hat & Hinv & _ & Hrate & _).
  destruct (discovery_loop_calls t agent _ _ _ _ Hex ltac:(unfold max_attempts; lia))
    as (Hcalls & Hfirst).
  pose proof (discovery_loop_log t agent _ _ _ _ Hex ltac:(unfold max_attempts; lia))
    as Horder.
  specialize (Hfirst Hbelow ltac:(unfold max_attempts; lia)).
  assert (Hlog : discovery_invokes (calls (rate_limited d w))
                 = discovery_invokes (calls w)
                 /\ rate_limit_calls (calls (rate_limited d w))
                    = S (rate_limit_calls (calls w))).
  { unfold rate_limited. cbn [log_call calls].
    rewrite discovery_invokes_log, rate_limit_calls_log. simpl. lia. }
  destruct Hlog as [Hl1 Hl2].
  assert (E : w' = exit_world ex \/ w' = set_discovery_complete true (exit_world ex)).
  { destruct ex; injection Hrun as <- <-; auto. }
  assert (Hw : rate w' = rate (exit_world ex) /\ calls w' = calls (exit_world ex)).
  { destruct E as [-> | ->]; split; reflexivity. }
  destruct Hw as [-> ->].
  split; [rewrite Hrate; reflexivity|].
  split; [rewrite Hcalls, Hl2; reflexivity|].
  split; [rewrite Hinv, Hl1; lia|].
  split; [rewrite Hinv, Hl1; lia|].
  exists (exit_attempts ex - 0). split; [lia|].
  rewrite Horder. unfold rate_limited. cbn [log_call calls].
  rewrite <- app_assoc. reflexivity.
Qed.

Lemma discovery_applies_limiter_once_witness :
  exists k,
    1 <= k <= max_attempts
    /\ calls (mkWorld [] 0 true (mkLimiter 1003 1 1003) initialize_csv
                (RateLimitCall :: repeat DiscoveryInvoke 10))
       = (calls (fresh_world (mkLimiter 1000 0 1001))
          ++ RateLimitCall :: repeat DiscoveryInvoke k)%list.
Proof.
  apply (discovery_applies_limiter_once Unlimited (mkDelays 0 0)
           (fun _ => Reply None) (fresh_world (mkLimiter 1000 0 1001))
           (mkWorld [] 0 true (mkLimiter 1003 1 1003) initialize_csv
              (RateLimitCall :: repeat DiscoveryInvoke 10))
           DISCOVERY_COMPLETE).
  - reflexivity.
  - vm_compute. reflexivity.
Defined.

(** With an agent whose replies never carry the two break texts, the loop
    is left only at the target or with the budget used up. *)
Lemma discovery_loop_quiet t agent :
  (forall k reg, target_reached t (List.length reg) = false ->
                 quiet_reply (fst (run_agent t (agent k) reg))) ->
  forall fuel a w w' a',
    discovery_loop fuel t agent a w = Some (LoopDone w' a') ->
    a <= max_attempts ->
    target_reached t (List.length (discovered_companies w')) = true
    \/ a' = max_attempts.
Proof.
  intros Hquiet. induction fuel as [|fuel IH]; intros a w w' a' H Ha.
  - cbn [discovery_loop] in H.
    destruct (negb _ && (a <? max_attempts)) eqn:Econd; [discriminate|].
    injection H as <- <-. apply andb_false_iff in Econd.
    destruct Econd as [E | E].
    + left. now apply negb_false_iff in E.
    + right. apply Nat.ltb_ge in E. lia.
  - cbn [discovery_loop] in H.
    destruct (negb _ && (a <? max_attempts)) eqn:Econd.
    + apply andb_true_iff in Econd. destruct Econd as [Hb Hlt].
      apply Nat.ltb_lt in Hlt. apply negb_true_iff in Hb.
      pose proof (Hquiet (a + 1) (discovered_companies w) Hb) as Hq.
      destruct (run_agent t (agent (a + 1)) (discovered_companies w))
        as [[[last_message|]|err] reg']; cbn [fst quiet_reply] in Hq.
      * destruct Hq as [Hq1 Hq2]. rewrite Hq1, Hq2 in H. cbn [orb] in H.
        destruct (Text.contains "already exists" last_message);
          [apply IH in H; [exact H | lia]|].
        destruct (Nat.leb_spec max_attempts (a + 1)).
        -- injection H as <- <-. right. lia.
        -- apply IH in H; [exact H | lia].
      * destruct (Nat.leb_spec max_attempts (a + 1)).
        -- injection H as <- <-. right. lia.
        -- apply IH in H; [exact H | lia].
      * discriminate.
    + injection H as <- <-. apply andb_false_iff in Econd.
      destruct Econd as [E | E].
      * left. now apply negb_false_iff in E.
      * right. apply Nat.ltb_ge in E. lia.
Qed.

(** X14. Unless the registry reaches the target, a discovery agent that
    neither raises nor replies with one of the break texts is invoked
    exactly [max_attempts] times, replies about duplicates included, and
    the node then returns the discovery-complete marker. *)
Theorem discovery_uses_whole_budget
    (t : target) (d : delays) (agent : nat -> agent_run) (w : world)
    (Hbelow : target_reached t (List.length (discovered_companies w)) = false)
    (Hsafe : forall k, no_raise (agent k))
    (Hquiet : forall k reg,
        target_reached t (List.length reg) = false ->
        quiet_reply (fst (run_agent t (agent k) reg))) :
  exists w',
    discovery_node t d agent w = Some (w', DISCOVERY_COMPLETE)
    /\ (target_reached t (List.length (discovered_companies w')) = true
        \/ discovery_invokes (calls w')
           = discovery_invokes (calls w) + max_attempts).
Proof.
  unfold discovery_node. rewrite Hbelow.
  destruct (discovery_loop_total t agent max_attempts 0 (rate_limited d w))
    as [ex Hex]; [lia|].
  rewrite Hex.
  destruct (discovery_loop_no_raise t agent Hsafe _ _ _ _ Hex) as (w1 & a1 & ->).
  eexists. split; [reflexivity|].
  destruct (discovery_loop_effect t agent _ _ _ _ Hex ltac:(unfold max_attempts; lia))
    as (_ & Hinv & _).
  cbn [exit_world exit_attempts] in Hinv.
  destruct (discovery_loop_quiet t agent Hquiet _ _ _ _ _ Hex
              ltac:(unfold max_attempts; lia)) as [Hfull | ->].
  - left. exact Hfull.
  - right. cbn [set_discovery_complete calls]. rewrite Hinv.
    unfold rate_limited. cbn [log_call calls].
    rewrite discovery_invokes_log. cbn [is_discovery_invoke]. lia.
Qed.

Lemma discovery_uses_whole_budget_witness :
  exists w',
    discovery_node (Finite 2) (mkDelays 0 0)
      (fun _ => CallAdd (named "Acme Corp")
                  (fun _ => Reply (Some "Company Acme Corp already exists")))
      (fresh_world (mkLimiter 0 0 1000))
    = Some (w', DISCOVERY_COMPLETE)
    /\ (target_reached (Finite 2) (List.length (discovered_companies w')) = true
        \/ discovery_invokes (calls w')
           = discovery_invokes (calls (fresh_world (mkLimiter 0 0 1000)))
             + max_attempts).
Proof.
  apply (discovery_uses_whole_budget (Finite 2) (mkDelays 0 0)
           (fun _ => CallAdd (named "Acme Corp")
                       (fun _ => Reply (Some "Company Acme Corp already exists")))
           (fresh_world (mkLimiter 0 0 1000))).
  - reflexivity.
  - intros k answer. exact I.
  - intros k reg _. cbn [run_agent].
    destruct (add_discovered_company (Finite 2) (named "Acme Corp") reg).
    split; reflexivity.
Defined.

Lemma contains_app_r n s s' :
  Text.contains n s' = true -> Text.contains n (s ++ s') = true.
Proof.
  intros H. induction s as [|b s IH]; [exact H|].
  change (String b s ++ s') with (String b (s ++ s')).
  cbn [Text.contains]. rewrite IH. apply orb_true_r.
Qed.

(** The call that appends: its signal and its record. *)
Lemma add_fresh_exact t c reg given :
  company_name c = Some given -> Text.strip given <> EmptyString ->
  target_reached t (List.length reg) = false ->
  ~ In (name_key given) (keys reg) ->
  exists rec,
    add_discovered_company t c reg
    = (if target_reached t (S (List.length reg))
       then SuccessTarget (S (List.length reg)) else Added given,
       (reg ++ [rec])%list)
    /\ name rec = Text.strip given.
Proof.
  intros Hc Hn Ht Hnot. unfold add_discovered_company. rewrite Hc.
  destruct (negb (Text.truthy given) || negb (Text.truthy (Text.strip given))) eqn:Eb.
  { apply name_check_blank in Eb. contradiction. }
  rewrite Ht.
  destruct (name_taken (Text.lower (Text.strip given)) reg) eqn:En.
  { apply name_taken_iff in En. contradiction. }
  rewrite length_app. cbn [List.length]. rewrite Nat.add_1_r.
  eexists. split.
  - destruct (target_reached t (S (List.length reg))); reflexivity.
  - reflexivity.
Qed.

(** One round of the loop that ends it, and one that does not. *)
Lemma discovery_loop_break fuel t agent a w msg reg' :
  target_reached t (List.length (discovered_companies w)) = false ->
  a < max_attempts ->
  run_agent t (agent (a + 1)) (discovered_companies w)
    = (Returned (Some msg), reg') ->
  Text.contains "Target reached" msg || Text.contains "SUCCESS" msg = true ->
  discovery_loop (S fuel) t agent a w
  = Some (LoopDone (log_call DiscoveryInvoke (set_companies reg' w)) (a + 1)).
Proof.
  intros Ht Ha Hrun Hkw. cbn [discovery_loop].
  apply Nat.ltb_lt in Ha. rewrite Ht, Ha, Hrun. cbn [negb andb].
  now rewrite Hkw.
Qed.

Lemma discovery_loop_next fuel t agent a w msg reg' :
  target_reached t (List.length (discovered_companies w)) = false ->
  a + 1 < max_attempts ->
  run_agent t (agent (a + 1)) (discovered_companies w)
    = (Returned (Some msg), reg') ->
  quiet_reply (Returned (Some msg)) ->
  discovery_loop (S fuel) t agent a w
  = discovery_loop fuel t agent (a + 1)
      (log_call DiscoveryInvoke (set_companies reg' w)).
Proof.
  intros Ht Ha Hrun [Hq1 Hq2]. cbn [discovery_loop].
  assert (Hlt : (a <? max_attempts) = true) by (apply Nat.ltb_lt; lia).
  rewrite Ht, Hlt, Hrun, Hq1, Hq2. cbn [negb andb orb].
  assert (Hmax : (max_attempts <=? a + 1) = false) by (apply Nat.leb_gt; lia).
  rewrite Hmax. now destruct (Text.contains "already exists" msg).
Qed.

Lemma success_text_breaks t k :
  Text.contains "Target reached" (signal_text t (SuccessTarget k))
  || Text.contains "SUCCESS" (signal_text t (SuccessTarget k)) = true.
Proof.
  apply orb_true_iff. right. cbn [signal_text].
  apply (contains_app "SUCCESS" "SUCCESS: Found "). reflexivity.
Qed.

Section Cooperative.

Variables (n : nat) (agent : nat -> agent_run) (given : nat -> string).
Hypothesis Hn : 1 <= n <= max_attempts.
Hypothesis Hagent : forall k, 1 <= k <= n -> agent k = relay (named (given k)).
Hypothesis Hnonblank : forall k, 1 <= k <= n -> Text.strip (given k) <> EmptyString.
Hypothesis Hdistinct :
  forall i j, 1 <= i -> i < j -> j <= n -> name_key (given i) <> name_key (given j).
Hypothesis Hquiet :
  forall k, 1 <= k < n ->
    quiet_reply (Returned (Some (signal_text (Finite n) (Added (given k))))).

Lemma relay_loop : forall j a fuel w,
  a + j = n -> 1 <= j -> j <= fuel ->
  map name (discovered_companies w)
    = map (fun k => Text.strip (given k)) (seq 1 a) ->
  exists w',
    discovery_loop fuel (Finite n) agent a w = Some (LoopDone w' n)
    /\ map name (discovered_companies w')
       = map (fun k => Text.strip (given k)) (seq 1 n)
    /\ discovery_invokes (calls w') = discovery_invokes (calls w) + j.
Proof.
  induction j as [|j IH]; intros a fuel w Haj Hj Hfuel Hnames; [lia|].
  destruct fuel as [|fuel]; [lia|].
  assert (Hlen : List.length (discovered_companies w) = a).
  { apply (f_equal (@List.length string)) in Hnames.
    now rewrite !length_map, length_seq in Hnames. }
  assert (Ht : target_reached (Finite n) (List.length (discovered_companies w)) = false).
  { rewrite Hlen. simpl. apply Nat.leb_gt. lia. }
  assert (Hkeys : keys (discovered_companies w)
                  = map (fun k => name_key (given k)) (seq 1 a)).
  { unfold keys. rewrite <- (map_map name name_key), Hnames, map_map.
    apply map_ext. intros k. unfold name_key. now rewrite strip_idem. }
  assert (Hnew : ~ In (name_key (given (a + 1))) (keys (discovered_companies w))).
  { rewrite Hkeys, in_map_iff. intros (k & Hk & Hin). apply in_seq in Hin.
    apply (Hdistinct k (a + 1)); [lia | lia | lia | exact Hk]. }
  destruct (add_fresh_exact (Finite n) (named (given (a + 1)))
              (discovered_companies w) (given (a + 1)) eq_refl
              (Hnonblank (a + 1) ltac:(lia)) Ht Hnew) as (rec & Hadd & Hrec).
  rewrite Hlen in Hadd.
  assert (Hnames' :
    map name (discovered_companies w ++ [rec])
    = map (fun k => Text.strip (given k)) (seq 1 (a + 1))).
  { rewrite map_app, Hnames, Nat.add_1_r, seq_S, map_app. cbn [map].
    rewrite Hrec. now rewrite (Nat.add_comm 1 a), Nat.add_1_r. }
  destruct j as [|j].
  - assert (Hrun : run_agent (Finite n) (agent (a + 1)) (discovered_companies w)
                   = (Returned (Some (signal_text (Finite n) (SuccessTarget (S a)))),
                      (discovered_companies w ++ [rec])%list)).
    { rewrite (Hagent (a + 1)) by lia. unfold relay. cbn [run_agent].
      rewrite Hadd. cbn [target_reached].
      assert (E : (n <=? S a) = true) by (apply Nat.leb_le; lia).
      now rewrite E. }
    rewrite (discovery_loop_break fuel (Finite n) agent a w _ _ Ht ltac:(lia) Hrun
               (success_text_breaks _ _)).
    eexists. split; [f_equal; f_equal; lia|].
    cbn [log_call set_companies discovered_companies calls].
    split.
    + rewrite Hnames'. f_equal. f_equal. lia.
    + rewrite discovery_invokes_log. reflexivity.
  - assert (Hrun : run_agent (Finite n) (agent (a + 1)) (discovered_companies w)
                   = (Returned (Some (signal_text (Finite n) (Added (given (a + 1))))),
                      (discovered_companies w ++ [rec])%list)).
    { rewrite (Hagent (a + 1)) by lia. unfold relay. cbn [run_agent].
      rewrite Hadd. cbn [target_reached].
      assert (E : (n <=? S a) = false) by (apply Nat.leb_gt; lia).
      now rewrite E. }
    rewrite (discovery_loop_next fuel (Finite n) agent a w _ _ Ht ltac:(lia) Hrun
               (Hquiet (a + 1) ltac:(lia))).
    destruct (IH (a + 1) fuel
                (log_call DiscoveryInvoke
                   (set_companies (discovered_companies w ++ [rec])%list w))
                ltac:(lia) ltac:(lia) ltac:(lia) Hnames')
      as (w' & Hloop & Hn' & Hi').
    exists w'. split; [exact Hloop|]. split; [exact Hn'|].
    rewrite Hi'. cbn [log_call calls set_companies].
    rewrite discovery_invokes_log. cbn [is_discovery_invoke]. lia.
Qed.

End Cooperative.

(** X15. Discovery reaches the target with a cooperative agent: if each
    of the first [n] invocations ([n] at most [max_attempts]) registers
    one company with a non-blank name whose key differs from the others
    and relays the tool's answer, and no answer before the last carries a
    break text, then from the empty registry [discovery_node] returns the
    discovery-complete marker after exactly [n] invocations with exactly
    those [n] companies, trimmed, in the order they were found. *)
Theorem cooperative_discovery_reaches_target
    (n : nat) (d : delays) (agent : nat -> agent_run) (given : nat -> string)
    (r : limiter)
    (Hn : 1 <= n <= max_attempts)
    (Hagent : forall k, 1 <= k <= n -> agent k = relay (named (given k)))
    (Hnonblank : forall k, 1 <= k <= n -> Text.strip (given k) <> EmptyString)
    (Hdistinct : forall i j, 1 <= i -> i < j -> j <= n ->
                 name_key (given i) <> name_key (given j))
    (Hquiet : forall k, 1 <= k < n ->
              quiet_reply (Returned (Some (signal_text (Finite n) (Added (given k)))))) :
  exists w',
    discovery_node (Finite n) d agent (fresh_world r) = Some (w', DISCOVERY_COMPLETE)
    /\ map name (discovered_companies w')
       = map (fun k => Text.strip (given k)) (seq 1 n)
    /\ discovery_invokes (calls w') = n
    /\ discovery_complete w' = true.
Proof.
  unfold discovery_node.
  assert (E : target_reached (Finite n)
                (List.length (discovered_companies (fresh_world r))) = false).
  { simpl. apply Nat.leb_gt. lia. }
  rewrite E.
  destruct (relay_loop n agent given Hn Hagent Hnonblank Hdistinct Hquiet
              n 0 max_attempts (rate_limited d (fresh_world r))
              ltac:(lia) ltac:(lia) ltac:(lia) eq_refl)
    as (w' & Hloop & Hnames & Hinv).
  rewrite Hloop. eexists. split; [reflexivity|].
  cbn [set_discovery_complete discovered_companies calls discovery_complete].
  split; [exact Hnames|]. split; [|reflexivity].
  rewrite Hinv. reflexivity.
Qed.

Lemma cooperative_discovery_reaches_target_witness :
  exists w',
    discovery_node (Finite 2) (mkDelays 0 0)
      (fun k => relay (named (match k with 1 => "Acme Corp" | _ => " Beta LLC" end)))
      (fresh_world (mkLimiter 0 0 1000))
    = Some (w', DISCOVERY_COMPLETE)
    /\ map name (discovered_companies w')
       = map (fun k => Text.strip (match k with 1 => "Acme Corp" | _ => " Beta LLC" end))
             (seq 1 2)
    /\ discovery_invokes (calls w') = 2
    /\ discovery_complete w' = true.
Proof.
  apply (cooperative_discovery_reaches_target 2 (mkDelays 0 0)
           (fun k => relay (named (match k with 1 => "Acme Corp" | _ => " Beta LLC" end)))
           (fun k => match k with 1 => "Acme Corp" | _ => " Beta LLC" end)
           (mkLimiter 0 0 1000)).
  - unfold max_attempts. lia.
  - reflexivity.
  - intros [|[|[|k]]] Hk; try lia; discriminate.
  - intros [|[|[|i]]] [|[|[|j]]] H1 H2 H3; try lia; discriminate.
  - intros [|[|[|k]]] Hk; try lia. split; reflexivity.
Defined.

(** X16. The break texts are looked for anywhere in the agent's last
    message, so a company whose name carries one of them ends discovery
    early: if the first invocation registers such a company and relays
    the tool's answer, discovery stops after that single invocation with
    one record, although the registry is still below the target. *)
Theorem keyword_in_name_stops_discovery
    (t : target) (d : delays) (agent : nat -> agent_run) (given : string)
    (r : limiter)
    (Hname : Text.strip given <> EmptyString)
    (Hkeyword : Text.contains "Target reached" given
                || Text.contains "SUCCESS" given = true)
    (Hbelow : target_reached t 1 = false)
    (Hagent : agent 1 = relay (named given)) :
  exists w',
    discovery_node t d agent (fresh_world r) = Some (w', DISCOVERY_COMPLETE)
    /\ map name (discovered_companies w') = [Text.strip given]
    /\ discovery_invokes (calls w') = 1
    /\ target_reached t (List.length (discovered_companies w')) = false.
Proof.
  assert (H0 : target_reached t 0 = false).
  { destruct t as [n|]; [|reflexivity]. simpl in *.
    apply Nat.leb_gt in Hbelow. apply Nat.leb_gt. lia. }
  destruct (add_fresh_exact t (named given) [] given eq_refl Hname H0
              (fun H => H)) as (rec & Hadd & Hrec).
  cbn [List.length] in Hadd. rewrite Hbelow in Hadd.
  assert (Hrun : run_agent t (agent (0 + 1))
                   (discovered_companies (rate_limited d (fresh_world r)))
                 = (Returned (Some (signal_text t (Added given))), [rec])).
  { cbn [Nat.add]. rewrite Hagent. unfold relay. cbn [run_agent].
    change (discovered_companies (rate_limited d (fresh_world r))) with (@nil company).
    now rewrite Hadd. }
  assert (Hkw : Text.contains "Target reached" (signal_text t (Added given))
                || Text.contains "SUCCESS" (signal_text t (Added given)) = true).
  { cbn [signal_text]. apply orb_true_iff. apply orb_true_iff in Hkeyword.
    destruct Hkeyword as [H | H]; [left | right]; now apply contains_app_r. }
  pose proof (discovery_loop_break 9 t agent 0 (rate_limited d (fresh_world r))
                _ _ H0 ltac:(unfold max_attempts; lia) Hrun Hkw) as Hloop.
  unfold discovery_node.
  change (target_reached t (List.length (discovered_companies (fresh_world r))))
    with (target_reached t 0).
  rewrite H0.
  change max_attempts with 10 at 1. rewrite Hloop.
  eexists. split; [reflexivity|].
  cbn [set_discovery_complete log_call set_companies discovered_companies calls
       List.length map].
  rewrite Hrec, Hbelow. repeat split.
Qed.

Lemma keyword_in_name_stops_discovery_witness :
  exists w',
    discovery_node (Finite 5) (mkDelays 0 0)
      (fun _ => relay (named "SUCCESS Systems Ltd"))
      (fresh_world (mkLimiter 0 0 1000))
    = Some (w', DISCOVERY_COMPLETE)
    /\ map name (discovered_companies w') = [Text.strip "SUCCESS Systems Ltd"]
    /\ discovery_invokes (calls w') = 1
    /\ target_reached (Finite 5) (List.length (discovered_companies w')) = false.
Proof.
  apply (keyword_in_name_stops_discovery (Finite 5) (mkDelays 0 0)
           (fun _ => relay (named "SUCCESS Systems Ltd"))
           "SUCCESS Systems Ltd" (mkLimiter 0 0 1000)).
  - discriminate.
  - reflexivity.
  - reflexivity.
  - reflexivity.
Defined.

(** ** Repeating a call, and what research leaves alone *)

(** X17. Registering the same candidate twice is the same as registering
    it once: the second call is always a rejection and leaves the
    registry as the first call left it. *)
Theorem add_twice_is_add_once (t : target) (c : candidate) (reg : list company) :
  rejection (fst (add_discovered_company t c (snd (add_discovered_company t c reg))))
  /\ snd (add_discovered_company t c (snd (add_discovered_company t c reg)))
     = snd (add_discovered_company t c reg).
Proof.
  assert (Hrej : rejection
            (fst (add_discovered_company t c (snd (add_discovered_company t c reg))))).
  { destruct (add_cases t c reg)
      as [[Hb E] | (given & Hc & Hn & [[Ht E] | [(Ht & Hin & E) | (Ht & Hnot & sg & rec & E & Hname & _)]])];
      rewrite E; cbn [snd].
    - rewrite (add_blank t c reg Hb). exact I.
    - rewrite (add_full t c reg given Hc Hn Ht). exact I.
    - rewrite (add_duplicate t c reg given Hc Hn Ht Hin). exact I.
    - destruct (target_reached t (List.length (reg ++ [rec])%list)) eqn:Ht'.
      + rewrite (add_full t c _ given Hc Hn Ht'). exact I.
      + rewrite (add_duplicate t c _ given Hc Hn Ht'); [exact I|].
        rewrite keys_app. apply in_or_app. right. left.
        rewrite Hname. unfold name_key. now rewrite strip_idem. }
  split; [exact Hrej | now apply add_rejection_keeps].
Qed.

(** X18. A research step never removes, moves or renames a record: every
    record of the registry is still at its position afterwards with all
    its fields as before, except that the record at the cursor may have
    received its report. *)
Theorem research_node_keeps_records
    (t : target) (e : research_env) (w : world) (i : nat) (c : company)
    (Hrec : nth_error (discovered_companies w) i = Some c) :
  exists c',
    nth_error (discovered_companies (fst (research_node t e w))) i = Some c'
    /\ name c' = name c /\ location c' = location c /\ website c' = website c
    /\ services c' = services c /\ email c' = email c
    /\ contact_details c' = contact_details c
    /\ (i <> current_research_index w -> c' = c).
Proof.
  destruct (research_node_cases t e w)
    as [[Hle E] | (c0 & out & reg' & Hlt & Hnth & Hrun & E)]; rewrite E.
  - exists c. repeat split. exact Hrec.
  - destruct (run_agent_extends t (r_agent e) (discovered_companies w)) as [x Hx].
    rewrite Hrun in Hx. cbn [snd] in Hx. subst reg'.
    assert (Hin : nth_error (discovered_companies w ++ x) i = Some c).
    { rewrite nth_error_app1; [exact Hrec | now apply nth_error_pending in Hrec]. }
    destruct out as [[report|]|err]; cbn [fst];
      try (exists c; repeat split; exact Hin).
    unfold after_report, after_agent.
    cbn [set_index set_csv set_companies log_call rate_limited discovered_companies
         current_research_index].
    destruct (Nat.eq_dec (current_research_index w) i) as [Heq | Hneq].
    + exists (set_report report c). subst i.
      split; [now apply update_at_nth|]. repeat split. congruence.
    + exists c. rewrite update_at_other by exact Hneq. repeat split. exact Hin.
Qed.

Lemma research_node_keeps_records_witness :
  exists c',
    nth_error
      (discovered_companies
         (fst (research_node (Finite 2)
                 (mkEnv (mkDelays 0 0) (Reply (Some "Report on Acme")) true)
                 (mkWorld [mkCompany "Acme Corp" "Pune" "" "" "" "" "";
                           mkCompany "Beta LLC" "" "" "" "" "" ""] 0 true
                          (mkLimiter 0 0 1000) initialize_csv [])))) 1
    = Some c'
    /\ name c' = "Beta LLC".
Proof.
  destruct (research_node_keeps_records (Finite 2)
              (mkEnv (mkDelays 0 0) (Reply (Some "Report on Acme")) true)
              (mkWorld [mkCompany "Acme Corp" "Pune" "" "" "" "" "";
                        mkCompany "Beta LLC" "" "" "" "" "" ""] 0 true
                       (mkLimiter 0 0 1000) initialize_csv [])
              1 (mkCompany "Beta LLC" "" "" "" "" "" "") eq_refl)
    as (c' & H1 & H2 & _).
  exists c'. split; assumption.
Defined.
